(** * imap-codec: the fragmenting encoder and the stream decoder

    A shallow embedding of
    - [imap-codec/src/codec/encode.rs]: the [EncodeContext] accumulator, the
      [Fragment] stream ([Encoded], its [Iterator] and [dump]) and the leaf
      encoding rules the claims are about (literal, string family, command,
      greeting, status, data and continuation roots), [EncodeContext::dump],
      the [utils] joins ([join_serializable], [List1OrNil],
      [List1AttributeValueOrNil]) and the sequence-set rules;
    - [src/tokio/mod.rs]: [ImapServerCodec::decode], the line/literal framer;
    - [imap-types/src/security.rs]: [Debug for Secret], [compare_ct] and
      [PartialEq for Secret].

    Bytes are [list byte] (Stdlib [Byte.byte]); [usize] positions into a
    buffer are [nat]; [u32] literal sizes and the [usize] configuration bound
    are [N]. The crate is modelled with the [ext_literal] feature enabled, so
    every [Fragment::Literal] carries its [LiteralMode]. *)

From Stdlib Require Import String Ascii Strings.Byte NArith Arith Lia Bool List.
Import ListNotations.
Open Scope list_scope.

(** ** Byte helpers shared by both halves *)
Module Bytes.

Fixpoint bytes_eqb (x y : list byte) : bool :=
  match x, y with
  | [], [] => true
  | a :: x', c :: y' => Byte.eqb a c && bytes_eqb x' y'
  | _, _ => false
  end.

(** ASCII text as bytes (the [b"..."] literals of the source). *)
Definition b (s : string) : list byte := list_byte_of_string s.

Definition CR : byte := x0d.
Definition LF : byte := x0a.
Definition crlf : list byte := [CR; LF].

Definition is_digit (c : byte) : bool :=
  (48 <=? Byte.to_N c)%N && (Byte.to_N c <=? 57)%N.

Definition digit_value (c : byte) : N := (Byte.to_N c - 48)%N.

(** Decimal rendering of an unsigned integer, as [to_string] / [{}] of
    Rust's [Display] for [usize] and [u32]. The fuel is the bit length,
    which bounds the number of decimal digits. *)
Fixpoint dec_go (fuel : nat) (n : N) (acc : list byte) : list byte :=
  match fuel with
  | O => acc
  | S f =>
      let d := match Byte.of_N (48 + n mod 10)%N with Some c => c | None => x30 end in
      if (n <? 10)%N then d :: acc else dec_go f (n / 10)%N (d :: acc)
  end.

Definition to_dec (n : N) : list byte :=
  dec_go (S (N.to_nat (N.size n))) n [].

End Bytes.
Import Bytes.

(** ** The fragmenting encoder ([codec/encode.rs]) *)
Module Encoder.

Inductive LiteralMode := Sync | NonSync.

(** [pub enum Fragment] *)
Inductive Fragment :=
| Line (data : list byte)
| Literal (data : list byte) (mode : LiteralMode).

Definition payload (f : Fragment) : list byte :=
  match f with Line d => d | Literal d _ => d end.

(** [pub struct EncodeContext { accumulator, items }] *)
Record EncodeContext := mkCtx {
  accumulator : list byte;
  items : list Fragment
}.

Definition EncodeContext_new : EncodeContext := mkCtx [] [].

(** [impl Write for EncodeContext]: [write] extends the accumulator and
    never fails, so every [write_all] / [write!] into a context succeeds. *)
Definition write_all (buf : list byte) (ctx : EncodeContext) : EncodeContext :=
  mkCtx (accumulator ctx ++ buf) (items ctx).

(** [push_line]: the accumulator is taken ([mem::take]) into a Line. *)
Definition push_line (ctx : EncodeContext) : EncodeContext :=
  mkCtx [] (items ctx ++ [Line (accumulator ctx)]).

(** [push_literal(mode)]: the accumulator is taken into a Literal. *)
Definition push_literal (mode : LiteralMode) (ctx : EncodeContext) : EncodeContext :=
  mkCtx [] (items ctx ++ [Literal (accumulator ctx) mode]).

(** [into_items]: a non-empty accumulator is flushed as a final Line. *)
Definition into_items (ctx : EncodeContext) : list Fragment :=
  match accumulator ctx with
  | [] => items ctx
  | _ :: _ => items ctx ++ [Line (accumulator ctx)]
  end.

(** [pub struct Encoded { items: Vec<Fragment> }] *)
Record Encoded := mkEncoded { encoded_items : list Fragment }.

(** [Encoded::dump]: append the data of every fragment, in order. *)
Definition dump (e : Encoded) : list byte :=
  fold_left (fun out f => out ++ payload f) (encoded_items e) [].

(** [impl Iterator for Encoded]: [next] removes and returns index 0. *)
Definition next (e : Encoded) : option (Fragment * Encoded) :=
  match encoded_items e with
  | [] => None
  | f :: rest => Some (f, mkEncoded rest)
  end.

(** Driving the iterator to exhaustion (a [for] loop over [Encoded]);
    every [next] removes one item, so [length] calls suffice. *)
Fixpoint drain (fuel : nat) (e : Encoded) : list Fragment :=
  match fuel with
  | O => []
  | S f =>
      match next e with
      | None => []
      | Some (x, e') => x :: drain f e'
      end
  end.

Definition fragments (e : Encoded) : list Fragment :=
  drain (length (encoded_items e)) e.

(** *** Encoding rules

    An encoding rule [encode_ctx(&self, ctx)] is a program over the context.
    The rules of [encode.rs] are built from [write_all] / [write!], calls to
    the rules of their sub-values, and the [Literal] rule, which is the only
    one calling [push_line] / [push_literal]. [Enc] is that language; a rule
    is a function from its value to an [Enc] program. *)
Inductive Enc :=
| EWrite (bs : list byte)
| ESeq (e1 e2 : Enc)
| ELiteral (data : list byte) (mode : LiteralMode).

Infix ";;" := ESeq (at level 61, left associativity).

(** [impl Encoder for Literal]: [{N}\r\n] (or [{N+}\r\n] for NonSync),
    [push_line], the [N] literal bytes, [push_literal(mode)]. *)
Definition literal_announcement (mode : LiteralMode) (len : nat) : list byte :=
  match mode with
  | Sync => b "{" ++ to_dec (N.of_nat len) ++ b "}" ++ crlf
  | NonSync => b "{" ++ to_dec (N.of_nat len) ++ b "+}" ++ crlf
  end.

Definition Literal_encode_ctx (data : list byte) (mode : LiteralMode)
    (ctx : EncodeContext) : EncodeContext :=
  let ctx := write_all (literal_announcement mode (length data)) ctx in
  let ctx := push_line ctx in
  let ctx := write_all data ctx in
  push_literal mode ctx.

Fixpoint run (e : Enc) (ctx : EncodeContext) : EncodeContext :=
  match e with
  | EWrite bs => write_all bs ctx
  | ESeq e1 e2 => run e2 (run e1 ctx)
  | ELiteral data mode => Literal_encode_ctx data mode ctx
  end.

(** [impl<T: Encoder> Encode for T]: run the rule on a fresh context and
    collect [into_items]. *)
Definition encode (e : Enc) : Encoded :=
  mkEncoded (into_items (run e EncodeContext_new)).

Fixpoint literal_count (e : Enc) : nat :=
  match e with
  | EWrite _ => 0
  | ESeq e1 e2 => literal_count e1 + literal_count e2
  | ELiteral _ _ => 1
  end.

(** *** Leaf rules of the string family *)

(** Modelled from the spec: [escape_quoted] of [imap_types::utils] (not in
    the sources at hand); the spec: backslash and double quote are escaped
    with a backslash, other bytes pass through. *)
Definition escape_quoted (s : list byte) : list byte :=
  flat_map (fun c => if Byte.eqb c x5c then [x5c; x5c]
                     else if Byte.eqb c x22 then [x5c; x22] else [c]) s.

(** [Literal]: data plus (under [ext_literal]) its mode. *)
Record LiteralV := mkLiteral { lit_data : list byte; lit_mode : LiteralMode }.

Inductive IString :=
| IS_Literal (l : LiteralV)
| IS_Quoted (q : list byte).

(** [AString::Atom] holds an [AtomExt]. *)
Inductive AString :=
| AS_Atom (atom : list byte)
| AS_String (s : IString).

Definition Literal_encode (l : LiteralV) : Enc := ELiteral (lit_data l) (lit_mode l).

(** [impl Encoder for Quoted]: [write!(ctx, "\"{}\"", escape_quoted(..))]. *)
Definition Quoted_encode (q : list byte) : Enc :=
  EWrite ([x22] ++ escape_quoted q ++ [x22]).

Definition IString_encode (s : IString) : Enc :=
  match s with
  | IS_Literal l => Literal_encode l
  | IS_Quoted q => Quoted_encode q
  end.

(** [Atom] / [AtomExt]: their raw bytes. *)
Definition AString_encode (a : AString) : Enc :=
  match a with
  | AS_Atom atom => EWrite atom
  | AS_String s => IString_encode s
  end.

Inductive Mailbox :=
| Inbox
| MailboxOther (inner : AString).

Definition Mailbox_encode (m : Mailbox) : Enc :=
  match m with
  | Inbox => EWrite (b "INBOX")
  | MailboxOther inner => AString_encode inner
  end.

(** *** Commands ([impl Encoder for Command] / [CommandBody]) *)

(** The verbs of [CommandBody] used below; the other arms are programs of
    the same shape (writes and sub-rules). *)
Inductive CommandBody :=
| Capability
| Noop
| Logout
| Login (username password : AString)
| Select (mailbox : Mailbox).

Definition CommandBody_encode (c : CommandBody) : Enc :=
  match c with
  | Capability => EWrite (b "CAPABILITY")
  | Noop => EWrite (b "NOOP")
  | Logout => EWrite (b "LOGOUT")
  | Login username password =>
      EWrite (b "LOGIN") ;; EWrite (b " ") ;; AString_encode username ;;
      EWrite (b " ") ;; AString_encode password
  | Select mailbox =>
      EWrite (b "SELECT") ;; EWrite (b " ") ;; Mailbox_encode mailbox
  end.

Record Command := mkCommand { tag : list byte; body : CommandBody }.

(** [tag], [" "], body, ["\r\n"]: the rule for any body program. *)
Definition Command_rule (tag : list byte) (body : Enc) : Enc :=
  EWrite tag ;; EWrite (b " ") ;; body ;; EWrite crlf.

Definition Command_encode (c : Command) : Enc :=
  Command_rule (tag c) (CommandBody_encode (body c)).

(** *** Greetings and responses *)

Inductive GreetingKind := GOk | GPreAuth | GBye.

Definition GreetingKind_encode (k : GreetingKind) : Enc :=
  match k with
  | GOk => EWrite (b "OK")
  | GPreAuth => EWrite (b "PREAUTH")
  | GBye => EWrite (b "BYE")
  end.

(** [if let Some(code) = code { "[" code "] " }] *)
Definition opt_code (code : option Enc) : Enc :=
  match code with
  | Some c => EWrite (b "[") ;; c ;; EWrite (b "] ")
  | None => EWrite []
  end.

(** [impl Encoder for Greeting]; [code] is the program of the [Code] rule,
    [text] the bytes of the [Text]. *)
Definition Greeting_encode (kind : GreetingKind) (code : option Enc)
    (text : list byte) : Enc :=
  EWrite (b "* ") ;; GreetingKind_encode kind ;; EWrite (b " ") ;;
  opt_code code ;; EWrite text ;; EWrite crlf.

Inductive Status :=
| StatusOk (tag : option (list byte)) (code : option Enc) (text : list byte)
| StatusNo (tag : option (list byte)) (code : option Enc) (text : list byte)
| StatusBad (tag : option (list byte)) (code : option Enc) (text : list byte)
| StatusBye (code : option Enc) (text : list byte).

(** [format_status] *)
Definition format_status (tag : option (list byte)) (status : string)
    (code : option Enc) (comment : list byte) : Enc :=
  match tag with Some t => EWrite t | None => EWrite (b "*") end ;;
  EWrite (b " ") ;; EWrite (b status) ;; EWrite (b " ") ;;
  opt_code code ;; EWrite comment ;; EWrite crlf.

Definition Status_encode (s : Status) : Enc :=
  match s with
  | StatusOk tag code text => format_status tag "OK" code text
  | StatusNo tag code text => format_status tag "NO" code text
  | StatusBad tag code text => format_status tag "BAD" code text
  | StatusBye code text => format_status None "BYE" code text
  end.

(** [Continue]; the [Base64] arm writes the base64 text of its data, given
    here by those encoded bytes. *)
Inductive Continue :=
| ContinueBasic (code : option Enc) (text : list byte)
| ContinueBase64 (encoded : list byte).

Definition Continue_encode (c : Continue) : Enc :=
  match c with
  | ContinueBasic (Some code) text =>
      EWrite (b "+ [") ;; code ;; EWrite (b "] ") ;; EWrite text ;; EWrite crlf
  | ContinueBasic None text =>
      EWrite (b "+ ") ;; EWrite text ;; EWrite crlf
  | ContinueBase64 encoded =>
      EWrite (b "+ ") ;; EWrite encoded ;; EWrite crlf
  end.

(** [impl Encoder for Data]: every arm of the [match] writes its bytes,
    then ["\r\n"] is written; [arm] is the program of the matched arm. *)
Definition Data_encode (arm : Enc) : Enc := arm ;; EWrite crlf.

Inductive Response :=
| RStatus (s : Status)
| RData (arm : Enc)
| RContinue (c : Continue).

Definition Response_encode (r : Response) : Enc :=
  match r with
  | RStatus s => Status_encode s
  | RData arm => Data_encode arm
  | RContinue c => Continue_encode c
  end.

(** The messages the encoder is applied to: commands (any body program),
    greetings and responses. *)
Inductive Message :=
| MCommand (tag : list byte) (body : Enc)
| MGreeting (kind : GreetingKind) (code : option Enc) (text : list byte)
| MResponse (r : Response).

Definition Message_encode (m : Message) : Enc :=
  match m with
  | MCommand tag body => Command_rule tag body
  | MGreeting kind code text => Greeting_encode kind code text
  | MResponse r => Response_encode r
  end.

End Encoder.

(** ** The stream decoder ([src/tokio/mod.rs]) *)
Module Decoder.

(** [enum State] *)
Inductive State :=
| ReadLine (to_consume_acc : nat)
| ReadLiteral (to_consume_acc : nat) (needed : N).

(** [pub struct ImapServerCodec { state, max_literal_size }] *)
Record ImapServerCodec := mkCodec { state : State; max_literal_size : N }.

Definition ImapServerCodec_new (max_literal_size : N) : ImapServerCodec :=
  mkCodec (ReadLine 0) max_literal_size.

Inductive LineKind := NotCrLf.
Inductive LiteralKind := TooLarge (n : N) | BadNumber | NoOpeningBrace.

Inductive result (A E : Type) := Ok (a : A) | Err (e : E).
Arguments Ok {A E} a.
Arguments Err {A E} e.

Inductive Action := SendLiteralAck (n : N) | SendLiteralReject (n : N).

(** A Rust call either returns or panics ([assert!]). *)
Inductive exec (A : Type) := Returned (a : A) | Panicked.
Arguments Returned {A} a.
Arguments Panicked {A}.

(** Index [i] of a buffer; every index the decoder reads is in bounds. *)
Definition at_ (buf : list byte) (i : nat) : byte := nth i buf x00.

(** [Iterator::position] *)
Fixpoint position (p : byte -> bool) (l : list byte) : option nat :=
  match l with
  | [] => None
  | x :: r => if p x then Some 0 else option_map S (position p r)
  end.

(** [find_crlf_inclusive(skip, buf)] *)
Definition find_crlf_inclusive (skip : nat) (buf : list byte)
    : result (option nat) LineKind :=
  match position (fun item => Byte.eqb item LF) (skipn skip buf) with
  | Some pos =>
      if negb (Byte.eqb (at_ buf (skip + (pos - 1))) CR)
      then Err NotCrLf
      else Ok (Some (pos + 1))
  | None => Ok None
  end.

(** The [while index > 0 { index -= 1; .. }] loop of
    [parse_literal_enclosing], counting [index] down from [line.len() - 1]. *)
Fixpoint scan_opening_brace (line : list byte) (index : nat)
    : result (option (list byte)) LiteralKind :=
  match index with
  | O => Err NoOpeningBrace
  | S i =>
      if Byte.eqb (at_ line i) x7b
      then Ok (Some (firstn (length line - 1 - (i + 1)) (skipn (i + 1) line)))
      else scan_opening_brace line i
  end.

(** [parse_literal_enclosing(line)]: [Some(&line[index + 1..line.len() - 1])]. *)
Definition parse_literal_enclosing (line : list byte)
    : result (option (list byte)) LiteralKind :=
  match line with
  | [] => Ok None
  | _ :: _ =>
      if negb (Byte.eqb (at_ line (length line - 1)) x7d) then Ok None
      else scan_opening_brace line (length line - 1)
  end.

(** [u32::from_str_radix(s, 10)] after [str::from_utf8]: empty input and a
    lone sign are rejected, one leading [+] is accepted, then every byte
    must be an ASCII digit and the value must stay below [2^32]. A byte
    sequence that is not UTF-8 has a byte above [0x7f], which is not a
    digit, so the [from_utf8] failure and the digit failure coincide and
    both give [BadNumber]. *)
Fixpoint digits_u32 (acc : N) (ds : list byte) : option N :=
  match ds with
  | [] => Some acc
  | c :: r =>
      if negb (is_digit c) then None
      else
        let acc' := (acc * 10 + digit_value c)%N in
        if (acc' <? 2 ^ 32)%N then digits_u32 acc' r else None
  end.

Definition from_str_radix_10_u32 (s : list byte) : option N :=
  match s with
  | [] => None
  | [c] => if Byte.eqb c x2b || Byte.eqb c x2d then None else digits_u32 0 s
  | c :: r => if Byte.eqb c x2b then digits_u32 0 r else digits_u32 0 s
  end.

(** [parse_literal(line)] *)
Definition parse_literal (line : list byte) : result (option N) LiteralKind :=
  match parse_literal_enclosing line with
  | Ok (Some raw) =>
      match from_str_radix_10_u32 raw with
      | Some num => Ok (Some num)
      | None => Err BadNumber
      end
  | Ok None => Ok None
  | Err err => Err err
  end.

Section Decode.

(** The grammar parser [crate::command::command] (outside this file's
    scope): [Ok((rem, cmd))] or a parse error. *)
Variable Command : Type.
Variable command : list byte -> option (list byte * Command).

Inductive Outcome :=
| OCommand (c : Command)
| OActionRequired (a : Action).

(** The error kinds [decode] produces ([Io] and [ActionRequired] are never
    returned by it). *)
Inductive ImapServerCodecError :=
| ELine (k : LineKind)
| ELiteral (k : LiteralKind)
| CommandParsingFailed.

Definition DecodeResult : Type :=
  result (option Outcome) ImapServerCodecError * ImapServerCodec * list byte.

(** The [State::ReadLine { ref mut to_consume_acc }] arm of the loop. Every
    path of it returns. [to_consume_acc] is updated in place by [+=]
    before the match on [parse_literal], so paths that do not assign
    [self.state] keep the incremented value. [src.advance(n)] drops the
    first [n] bytes; [src.clear()] empties the buffer; [src.reserve] only
    changes capacity. *)
Definition decode_read_line (max : N) (to_consume_acc : nat) (src : list byte)
    : exec DecodeResult :=
  match find_crlf_inclusive to_consume_acc src with
  | Ok (Some to_consume) =>
      let acc := to_consume_acc + to_consume in
      match parse_literal (firstn (acc - 2) src) with
      | Ok None =>
          match command (firstn acc src) with
          | Some (rem, cmd) =>
              match rem with
              | [] => Returned (Ok (Some (OCommand cmd)),
                                mkCodec (ReadLine 0) max, skipn acc src)
              | _ :: _ => Panicked
              end
          | None =>
              Returned (Err CommandParsingFailed,
                        mkCodec (ReadLine acc) max, skipn acc src)
          end
      | Ok (Some needed) =>
          if (max <? needed)%N then
            Returned (Ok (Some (OActionRequired (SendLiteralReject needed))),
                      mkCodec (ReadLine 0) max, skipn acc src)
          else
            Returned (Ok (Some (OActionRequired (SendLiteralAck needed))),
                      mkCodec (ReadLiteral acc needed) max, src)
      | Err error =>
          Returned (Err (ELiteral error), mkCodec (ReadLine 0) max, [])
      end
  | Ok None => Returned (Ok None, mkCodec (ReadLine to_consume_acc) max, src)
  | Err error => Returned (Err (ELine error), mkCodec (ReadLine 0) max, [])
  end.

(** [Decoder::decode]. The [loop] runs at most twice: the [ReadLiteral]
    arm either returns or moves to [ReadLine], whose arm always returns. *)
Definition decode (codec : ImapServerCodec) (src : list byte) : exec DecodeResult :=
  let max := max_literal_size codec in
  match state codec with
  | ReadLine to_consume_acc => decode_read_line max to_consume_acc src
  | ReadLiteral to_consume_acc needed =>
      if (N.of_nat to_consume_acc + needed <=? N.of_nat (length src))%N
      then decode_read_line max (to_consume_acc + N.to_nat needed) src
      else Returned (Ok None, codec, src)
  end.

(** Feeding chunks: append each chunk to the buffer, call [decode] once
    per chunk, collect the results; stops at a panic. *)
Fixpoint feed (codec : ImapServerCodec) (src : list byte) (chunks : list (list byte))
    : list (result (option Outcome) ImapServerCodecError) * option (ImapServerCodec * list byte) :=
  match chunks with
  | [] => ([], Some (codec, src))
  | ch :: rest =>
      match decode codec (src ++ ch) with
      | Panicked => ([], None)
      | Returned (r, codec', src') =>
          let '(rs, fin) := feed codec' src' rest in (r :: rs, fin)
      end
  end.

End Decode.

Arguments OCommand {Command} c.
Arguments OActionRequired {Command} a.

End Decoder.

(** ** The command grammar the decoder hands framed input to *)
Module ParserModel.
Import Encoder Decoder.

(** Modelled from the spec: the grammar parser [crate::command::command]
    (not among the sources at hand), by its contract in the spec:
    [parse(bytes) -> (Command, remaining_bytes) | ParseError], pure, with
    all literals inline. The model covers the IMAP4rev1 productions
    [command = tag SP command-body CRLF] for the verbs CAPABILITY, NOOP,
    LOGOUT (no arguments) and LOGIN [astring SP astring], with
    [astring = 1*ASTRING-CHAR / quoted / literal]; verbs are matched
    case-insensitively, anything else is a parse error. It returns the
    bytes after the command's CRLF, untouched. *)

Definition in_bytes (c : byte) (s : string) : bool :=
  existsb (Byte.eqb c) (b s).

(** ATOM-CHAR: a printable CHAR that is not an atom-special. *)
Definition is_atom_char (c : byte) : bool :=
  (33 <=? Byte.to_N c)%N && (Byte.to_N c <=? 126)%N &&
  negb (in_bytes c "(){%*\]") && negb (Byte.eqb c x22).

Definition is_astring_char (c : byte) : bool :=
  is_atom_char c || Byte.eqb c x5d.

Definition is_tag_char (c : byte) : bool :=
  is_astring_char c && negb (Byte.eqb c x2b).

Fixpoint take_while (p : byte -> bool) (l : list byte) : list byte * list byte :=
  match l with
  | c :: r => if p c then let '(t, u) := take_while p r in (c :: t, u) else ([], l)
  | [] => ([], [])
  end.

Definition upper (c : byte) : byte :=
  if (97 <=? Byte.to_N c)%N && (Byte.to_N c <=? 122)%N
  then match Byte.of_N (Byte.to_N c - 32) with Some u => u | None => c end
  else c.

Definition expect (c : byte) (l : list byte) : option (list byte) :=
  match l with
  | x :: r => if Byte.eqb x c then Some r else None
  | [] => None
  end.

Definition expect_crlf (l : list byte) : option (list byte) :=
  match expect CR l with Some r => expect LF r | None => None end.

(** [quoted]: [DQUOTE *QUOTED-CHAR DQUOTE] after the opening quote. *)
Fixpoint quoted_rest (l : list byte) : option (list byte * list byte) :=
  match l with
  | [] => None
  | c :: r =>
      if Byte.eqb c x22 then Some ([], r)
      else if Byte.eqb c x5c then
        match r with
        | d :: r' =>
            if Byte.eqb d x22 || Byte.eqb d x5c then
              match quoted_rest r' with Some (q, u) => Some (d :: q, u) | None => None end
            else None
        | [] => None
        end
      else if Byte.eqb c CR || Byte.eqb c LF || Byte.eqb c x00 then None
      else match quoted_rest r with Some (q, u) => Some (c :: q, u) | None => None end
  end.

(** [literal]: ["{" number "}" CRLF *CHAR8], the data being [number] bytes. *)
Definition literal_rest (l : list byte) : option (list byte * list byte) :=
  let '(ds, r) := take_while is_digit l in
  match ds with
  | [] => None
  | _ :: _ =>
      match digits_u32 0 ds, expect x7d r with
      | Some n, Some r1 =>
          match expect_crlf r1 with
          | Some r2 =>
              if (N.of_nat (length r2) <? n)%N then None
              else Some (firstn (N.to_nat n) r2, skipn (N.to_nat n) r2)
          | None => None
          end
      | _, _ => None
      end
  end.

Definition astring (l : list byte) : option (AString * list byte) :=
  match l with
  | c :: r =>
      if Byte.eqb c x7b then
        match literal_rest r with
        | Some (d, u) => Some (AS_String (IS_Literal (mkLiteral d Sync)), u)
        | None => None
        end
      else if Byte.eqb c x22 then
        match quoted_rest r with
        | Some (q, u) => Some (AS_String (IS_Quoted q), u)
        | None => None
        end
      else
        let '(a, u) := take_while is_astring_char l in
        match a with [] => None | _ :: _ => Some (AS_Atom a, u) end
  | [] => None
  end.

Definition command_body (l : list byte) : option (CommandBody * list byte) :=
  let '(w, r) := take_while is_atom_char l in
  let verb := map upper w in
  if bytes_eqb verb (b "CAPABILITY") then Some (Capability, r)
  else if bytes_eqb verb (b "NOOP") then Some (Noop, r)
  else if bytes_eqb verb (b "LOGOUT") then Some (Logout, r)
  else if bytes_eqb verb (b "LOGIN") then
    match expect x20 r with
    | Some r1 =>
        match astring r1 with
        | Some (u, r2) =>
            match expect x20 r2 with
            | Some r3 =>
                match astring r3 with
                | Some (p, r4) => Some (Login u p, r4)
                | None => None
                end
            | None => None
            end
        | None => None
        end
    | None => None
    end
  else None.

(** [command(input) -> Ok((rem, cmd)) | Err(_)] *)
Definition command (input : list byte) : option (list byte * Command) :=
  let '(t, r) := take_while is_tag_char input in
  match t with
  | [] => None
  | _ :: _ =>
      match expect x20 r with
      | Some r1 =>
          match command_body r1 with
          | Some (body, r2) =>
              match expect_crlf r2 with
              | Some rem => Some (rem, mkCommand t body)
              | None => None
              end
          | None => None
          end
      | None => None
      end
  end.

(** The decoder instantiated with this grammar. *)
Definition decode := Decoder.decode Command command.
Definition feed := Decoder.feed Command command.

End ParserModel.

(** ** Debug-formatting of secrets ([imap-types/src/security.rs]) *)
Module Security.

(** [pub struct Secret<T>(T)] *)
Record Secret (T : Type) := mkSecret { expose_secret : T }.
Arguments mkSecret {T} _.
Arguments expose_secret {T} _.

(** A [Formatter] as the text written so far. *)
Definition Formatter := string.

(** [impl<T> Debug for Secret<T>]: [write!(f, "[[REDACTED]]")]; the write
    into the formatter succeeds ([Ok(())]). *)
Definition Secret_debug_fmt {T : Type} (s : Secret T) (f : Formatter)
    : Formatter * bool :=
  ((f ++ "[[REDACTED]]")%string, true).

(** [format!("{:?}", secret)]: formatting into an empty formatter. *)
Definition debug_string {T : Type} (s : Secret T) : string :=
  fst (Secret_debug_fmt s EmptyString).

End Security.

(** ** More of [codec/encode.rs]: [EncodeContext::dump], the [utils] joins
    and rules built on them *)
Module EncoderUtils.
Import Encoder.

(** [EncodeContext::dump]: [into_items], then the data of every item
    ([Line] or [Literal]) appended in order. *)
Definition EncodeContext_dump (ctx : EncodeContext) : list byte :=
  fold_left (fun out item => out ++ payload item) (into_items ctx) [].

(** [<[T]>::split_last]: [Some((last, head))] for a non-empty slice. *)
Definition split_last {A : Type} (l : list A) : option (A * list A) :=
  match rev l with
  | [] => None
  | last :: rhead => Some (last, rev rhead)
  end.

(** The loop [for item in head { item.encode_ctx(ctx)?; ctx.write_all(sep)?; }];
    [EWrite []] writes nothing (it is the empty loop, and the [Ok(())] arm). *)
Definition for_each_sep {A : Type} (enc : A -> Enc) (head : list A) (sep : list byte) : Enc :=
  fold_left (fun p item => p ;; enc item ;; EWrite sep) head (EWrite []).

(** [utils::join_serializable(elements, sep, ctx)]; [enc] is the element
    type's [encode_ctx]. *)
Definition join_serializable {A : Type} (enc : A -> Enc) (elements : list A)
    (sep : list byte) : Enc :=
  match split_last elements with
  | Some (last, head) => for_each_sep enc head sep ;; enc last
  | None => EWrite []
  end.

(** [impl Encoder for utils::List1OrNil(elements, sep)] *)
Definition List1OrNil {A : Type} (enc : A -> Enc) (elements : list A)
    (sep : list byte) : Enc :=
  match split_last elements with
  | Some (last, head) =>
      EWrite (b "(") ;; for_each_sep enc head sep ;; enc last ;; EWrite (b ")")
  | None => EWrite (b "NIL")
  end.

(** [impl Encoder for utils::List1AttributeValueOrNil(pairs)] *)
Definition List1AttributeValueOrNil {A : Type} (enc : A -> Enc)
    (elements : list (A * A)) : Enc :=
  match split_last elements with
  | Some ((attribute, value), head) =>
      EWrite (b "(") ;;
      fold_left (fun p '(attribute, value) =>
                   p ;; enc attribute ;; EWrite (b " ") ;; enc value ;; EWrite (b " "))
                head (EWrite []) ;;
      enc attribute ;; EWrite (b " ") ;; enc value ;;
      EWrite (b ")")
  | None => EWrite (b "NIL")
  end.

(** [impl Encoder for u32] ([to_string]) and [NonZeroU32] ([write!("{self}")]). *)
Definition u32_encode (n : N) : Enc := EWrite (to_dec n).

(** [SeqOrUid]: a [NonZeroU32] value or [*]. *)
Inductive SeqOrUid :=
| Value (number : N)
| Asterisk.

Definition SeqOrUid_encode (s : SeqOrUid) : Enc :=
  match s with
  | Value number => EWrite (to_dec number)
  | Asterisk => EWrite (b "*")
  end.

Inductive Sequence :=
| Single (seq_no : SeqOrUid)
| Range (from to : SeqOrUid).

Definition Sequence_encode (s : Sequence) : Enc :=
  match s with
  | Single seq_no => SeqOrUid_encode seq_no
  | Range from to => SeqOrUid_encode from ;; EWrite (b ":") ;; SeqOrUid_encode to
  end.

(** [impl Encoder for SequenceSet]: [join_serializable(self.0, b",")]. *)
Definition SequenceSet_encode (set : list Sequence) : Enc :=
  join_serializable Sequence_encode set (b ",").

(** The [Data::Search(seqs)] arm of [impl Encoder for Data] (the common
    ["\r\n"] is added by [Data_encode]). *)
Definition Search_arm (seqs : list N) : Enc :=
  match seqs with
  | [] => EWrite (b "* SEARCH")
  | _ :: _ => EWrite (b "* SEARCH ") ;; join_serializable u32_encode seqs (b " ")
  end.

End EncoderUtils.

(** ** Comparing secrets ([imap-types/src/security.rs]) *)
Module SecretCompare.
Import Security.

(** [subtle::ConstantTimeEq for u8], of the [subtle] crate [security.rs]
    calls: [x = self ^ other]; [y = (x | x.wrapping_neg()) >> 7];
    the [Choice] is [y ^ 1]. *)
Definition ct_eq_u8 (a c : byte) : N :=
  let x := N.lxor (Byte.to_N a) (Byte.to_N c) in
  let y := N.shiftr (N.lor x ((256 - x) mod 256)) 7 in
  N.lxor y 1.

(** [subtle::ConstantTimeEq for [T]]: [Choice(0)] when the lengths differ;
    otherwise [x = 1u8] and-ed ([&=]) with [ct_eq] of every zipped pair. *)
Definition ct_eq (a c : list byte) : N :=
  if negb (length a =? length c) then 0%N
  else fold_left (fun x '(ai, bi) => N.land x (ct_eq_u8 ai bi)) (combine a c) 1%N.

(** [Secret::compare_ct(&self, other)] for [S, O: AsRef<[u8]>] (the bytes
    [as_ref] gives): [ct_eq(..).unwrap_u8() == 1]. *)
Definition compare_ct (s : Secret (list byte)) (other : list byte) : bool :=
  N.eqb (ct_eq (expose_secret s) other) 1.

(** [impl PartialEq for Secret<T>]: [eq] by [ct_eq] of both [as_ref]s. *)
Definition Secret_eq (s o : Secret (list byte)) : bool :=
  N.eqb (ct_eq (expose_secret s) (expose_secret o)) 1.

End SecretCompare.

(** * Properties of the encoder *)
Module EncoderFacts.
Import Encoder.

Lemma fold_dump_app (l : list Fragment) (acc : list byte) :
  fold_left (fun out f => out ++ payload f) l acc = acc ++ concat (map payload l).
Proof.
  revert acc; induction l as [|f l IH]; intros acc; simpl.
  - now rewrite app_nil_r.
  - rewrite IH. now rewrite app_assoc.
Qed.

Lemma drain_length (l : list Fragment) :
  drain (length l) (mkEncoded l) = l.
Proof.
  induction l as [|f l IH]; simpl; [reflexivity|].
  now rewrite IH.
Qed.

Lemma fragments_items (e : Encoded) : fragments e = encoded_items e.
Proof. destruct e as [l]; apply drain_length. Qed.

(** Running a rule only appends fragments, two per literal it contains. *)
Lemma run_appends (p : Enc) (ctx : EncodeContext) :
  exists fs, items (run p ctx) = items ctx ++ fs /\ length fs = 2 * literal_count p.
Proof.
  revert ctx; induction p as [bs|p1 IH1 p2 IH2|data mode]; intros ctx; simpl.
  - exists []; split; [now rewrite app_nil_r | reflexivity].
  - destruct (IH1 ctx) as [fs1 [H1 L1]].
    destruct (IH2 (run p1 ctx)) as [fs2 [H2 L2]].
    exists (fs1 ++ fs2); split.
    + now rewrite H2, H1, app_assoc.
    + rewrite length_app; lia.
  - unfold Literal_encode_ctx, push_literal, write_all, push_line; simpl.
    eexists; split; [now rewrite <- app_assoc|reflexivity].
Qed.

Lemma run_literal (data : list byte) (mode : LiteralMode) (ctx : EncodeContext) :
  run (ELiteral data mode) ctx =
  mkCtx [] (items ctx ++ [Line (accumulator ctx ++ literal_announcement mode (length data));
                          Literal data mode]).
Proof. simpl; unfold Literal_encode_ctx, push_literal, write_all, push_line; simpl. now rewrite <- app_assoc. Qed.

(** Every root rule ends with the write of its terminating CRLF. *)
Lemma Message_encode_ends_crlf (m : Message) :
  exists pre, Message_encode m = pre ;; EWrite crlf.
Proof.
  destruct m as [tag body|kind code text|[s|arm|[[code|] text|enc]]];
    try (destruct s); simpl; eexists; reflexivity.
Qed.

(** Claim C1: for every message (every rule program [e] the blanket
    [Encode] impl runs), concatenating the payloads of the fragments the
    [Encoded] iterator delivers, in order, equals [dump] of it. *)
Theorem fragments_concat_dump (e : Enc) :
  concat (map payload (fragments (encode e))) = dump (encode e).
Proof.
  rewrite fragments_items. unfold dump. now rewrite fold_dump_app.
Qed.

(** Claim C2: the [Literal] rule writes [{N}] (or [{N+}] for NonSync) and
    CRLF, pushes the accumulator as a Line, writes the [N] bytes and pushes
    them as a Literal with the literal's mode; every rule program pushes
    exactly two fragments per literal it contains and nothing else (no other
    leaf pushes); and [A LOGIN alice {2}] with the Sync literal [CA FE]
    yields the three fragments of scenario S2. *)
Theorem literal_rule_fragments :
  (forall data mode ctx,
      run (ELiteral data mode) ctx =
      mkCtx [] (items ctx ++
                [Line (accumulator ctx ++ b "{" ++ to_dec (N.of_nat (length data)) ++
                       match mode with Sync => b "}" | NonSync => b "+}" end ++ crlf);
                 Literal data mode])) /\
  (forall p ctx, exists fs,
      items (run p ctx) = items ctx ++ fs /\ length fs = 2 * literal_count p) /\
  encoded_items
    (encode (Command_encode
               (mkCommand (b "A")
                  (Login (AS_Atom (b "alice"))
                         (AS_String (IS_Literal (mkLiteral [xca; xfe] Sync)))))))
  = [Line (b "A LOGIN alice {2}" ++ crlf); Literal [xca; xfe] Sync; Line crlf].
Proof.
  split; [|split].
  - intros data mode ctx. rewrite run_literal.
    destruct mode; reflexivity.
  - exact run_appends.
  - vm_compute. reflexivity.
Qed.

(** Claim C8: for every command, greeting and response, the accumulator
    left by the root rule ends with the terminating CRLF, and [encode]
    flushes it as the last fragment, a Line: the fragment list is
    non-empty and ends with a Line that contains the CRLF. *)
Theorem encode_ends_with_line (m : Message) :
  let ctx := run (Message_encode m) EncodeContext_new in
  (exists pre, accumulator ctx = pre ++ crlf) /\
  encoded_items (encode (Message_encode m)) = items ctx ++ [Line (accumulator ctx)].
Proof.
  destruct (Message_encode_ends_crlf m) as [pre Hpre].
  cbv zeta. unfold encode. rewrite Hpre. simpl.
  split.
  - eexists; reflexivity.
  - unfold into_items. simpl.
    destruct (accumulator (run pre EncodeContext_new) ++ crlf) eqn:E.
    + apply (f_equal (@length byte)) in E. rewrite length_app in E. simpl in E. lia.
    + reflexivity.
Qed.

End EncoderFacts.

(** * Properties of secrets *)
Module SecurityFacts.
Import Security.

(** Claim C10: debug-formatting [Secret(x)] yields exactly ["[[REDACTED]]"]
    whatever [x] is, so any two secrets format identically. *)
Theorem secret_debug_redacted :
  forall (T : Type) (x y : T),
    debug_string (mkSecret x) = "[[REDACTED]]"%string /\
    debug_string (mkSecret x) = debug_string (mkSecret y).
Proof. intros T x y; split; reflexivity. Qed.

End SecurityFacts.

(** * Properties of the decoder *)
Module DecoderFacts.
Import Decoder.

(** Decimal value of a digit string, as the spec reads an announcement. *)
Definition value_from (acc : N) (ds : list byte) : N :=
  fold_left (fun a c => (a * 10 + digit_value c)%N) ds acc.

Definition decimal_value (ds : list byte) : N := value_from 0 ds.

Ltac destruct_match_in H :=
  match type of H with
  | context [match ?x with _ => _ end] => destruct x eqn:?
  end.

Lemma nth_skipn_add (l : list byte) (k i : nat) (d : byte) :
  nth i (skipn k l) d = nth (k + i) l d.
Proof.
  revert l; induction k as [|k IH]; intros l; [reflexivity|].
  destruct l as [|x l]; simpl.
  - destruct i; reflexivity.
  - apply IH.
Qed.

(** Line scanning from [skip] sees only the bytes from [skip] on. *)
Lemma find_crlf_inclusive_skipn (skip : nat) (buf : list byte) :
  find_crlf_inclusive skip buf = find_crlf_inclusive 0 (skipn skip buf).
Proof.
  unfold find_crlf_inclusive, at_. simpl skipn at 2.
  destruct (position _ (skipn skip buf)) as [pos|]; [|reflexivity].
  now rewrite nth_skipn_add.
Qed.

Lemma position_app_none (p : byte -> bool) (l1 l2 : list byte) :
  forallb (fun c => negb (p c)) l1 = true ->
  position p (l1 ++ l2) = option_map (Nat.add (length l1)) (position p l2).
Proof.
  induction l1 as [|x l1 IH]; simpl; intros H.
  - destruct (position p l2); reflexivity.
  - apply andb_prop in H as [Hx Hl].
    destruct (p x); [discriminate|].
    rewrite IH by exact Hl. destruct (position p l2); reflexivity.
Qed.

Lemma digit_not (c d : byte) : is_digit c = true -> is_digit d = false -> Byte.eqb c d = false.
Proof.
  intros Hc Hd. destruct (Byte.eqb c d) eqn:E; [|reflexivity].
  apply Byte.byte_dec_bl in E. subst. congruence.
Qed.

Lemma value_from_ge (ds : list byte) (acc : N) :
  (acc <= value_from acc ds)%N.
Proof.
  revert acc; induction ds as [|c ds IH]; intros acc; simpl; [lia|].
  specialize (IH (acc * 10 + digit_value c)%N). lia.
Qed.

Lemma digits_u32_value (ds : list byte) (acc : N) :
  forallb is_digit ds = true ->
  (value_from acc ds < 2 ^ 32)%N ->
  digits_u32 acc ds = Some (value_from acc ds).
Proof.
  revert acc; induction ds as [|c ds IH]; intros acc Hd Hlt; simpl in *; [reflexivity|].
  apply andb_prop in Hd as [Hc Hds]. rewrite Hc. simpl.
  pose proof (value_from_ge ds (acc * 10 + digit_value c)%N) as Hge.
  change (N.pos (2 ^ 32)%positive) with (2 ^ 32)%N in *.
  destruct (N.ltb_spec (acc * 10 + digit_value c) (2 ^ 32)); [now apply IH | lia].
Qed.

(** Scanning down from the closing brace over digits finds the [{]. *)
Lemma scan_over_digits (X ds : list byte) (j : nat) :
  forallb is_digit ds = true -> j <= length ds ->
  let L := X ++ [x7b] ++ ds ++ [x7d] in
  scan_opening_brace L (length X + 1 + j) =
  Ok (Some (firstn (length L - 1 - (length X + 1)) (skipn (length X + 1) L))).
Proof.
  intros Hd; induction j as [|j IH]; intros Hj L.
  - assert (E : length X + 1 + 0 = S (length X)) by lia.
    rewrite E. simpl scan_opening_brace.
    unfold at_, L. rewrite app_nth2 by lia. rewrite Nat.sub_diag. reflexivity.
  - rewrite Nat.add_succ_r. simpl scan_opening_brace.
    unfold at_, L. rewrite app_nth2 by lia.
    replace (length X + 1 + j - length X) with (S j) by lia. simpl nth.
    rewrite app_nth1 by lia.
    assert (Hdig : is_digit (nth j ds x00) = true).
    { apply forallb_forall with (x := nth j ds x00) in Hd; [exact Hd|].
      apply nth_In; lia. }
    rewrite (digit_not _ x7b Hdig eq_refl). apply IH; lia.
Qed.

Lemma firstn_brace_digits (X ds : list byte) :
  let L := X ++ [x7b] ++ ds ++ [x7d] in
  firstn (length L - 1 - (length X + 1)) (skipn (length X + 1) L) = ds.
Proof.
  intros L. unfold L. rewrite !length_app. simpl length.
  replace (length X + 1) with (length (X ++ [x7b])) by (rewrite length_app; reflexivity).
  rewrite app_assoc, skipn_app, skipn_all, Nat.sub_diag. simpl.
  rewrite firstn_app, length_app. simpl length.
  replace (length X + S (length ds + 1) - 1 - (length X + 1)) with (length ds) by lia.
  rewrite firstn_all, Nat.sub_diag. simpl. apply app_nil_r.
Qed.

Lemma parse_literal_announcement (X ds : list byte) (n : N) :
  ds <> [] -> forallb is_digit ds = true -> decimal_value ds = n -> (n < 2 ^ 32)%N ->
  parse_literal (X ++ [x7b] ++ ds ++ [x7d]) = Ok (Some n).
Proof.
  intros Hne Hd Hv Hlt. unfold parse_literal, parse_literal_enclosing.
  destruct (X ++ [x7b] ++ ds ++ [x7d]) as [|z zs] eqn:E.
  { destruct X; discriminate. }
  rewrite <- E.
  assert (Hlen : length (X ++ [x7b] ++ ds ++ [x7d]) - 1 = length X + 1 + length ds)
    by (rewrite !length_app; simpl; lia).
  unfold at_. rewrite Hlen.
  rewrite app_nth2 by lia. replace (length X + 1 + length ds - length X) with (S (length ds)) by lia.
  simpl nth. rewrite app_nth2 by lia. rewrite Nat.sub_diag. simpl.
  change (X ++ x7b :: ds ++ [x7d]) with (X ++ [x7b] ++ ds ++ [x7d]).
  rewrite (scan_over_digits X ds (length ds) Hd (le_n _)).
  rewrite firstn_brace_digits.
  assert (Hv' : digits_u32 0 ds = Some n).
  { rewrite <- Hv. apply digits_u32_value; [exact Hd|]. now rewrite <- Hv in Hlt. }
  unfold from_str_radix_10_u32.
  destruct ds as [|c r]; [congruence|].
  simpl in Hd. apply andb_prop in Hd as [Hc _].
  destruct r as [|c' r]; cbn -[digits_u32];
    rewrite ?(digit_not _ x2b Hc eq_refl), ?(digit_not _ x2d Hc eq_refl);
    cbn -[digits_u32]; now rewrite Hv'.
Qed.

Lemma decode_read_line_none_src (Cmd : Type) command max acc src r c' src' :
  decode_read_line Cmd command max acc src = Returned (r, c', src') ->
  r = Ok None -> src' = src /\ max_literal_size c' = max.
Proof.
  unfold decode_read_line. intros H Hr; subst r.
  repeat (destruct_match_in H; try discriminate);
    try (injection H as <- <- <-; auto; discriminate);
    try (injection H; intros; discriminate).
  all: injection H; intros; subst; try discriminate; auto.
Qed.

Lemma skipn_exact {A} (x y : list A) (n : nat) :
  n = length x -> skipn n (x ++ y) = y.
Proof. intros ->. induction x as [|a x IH]; simpl; auto. Qed.

Lemma firstn_exact {A} (x y : list A) (n : nat) :
  n = length x -> firstn n (x ++ y) = x.
Proof. intros ->. induction x as [|a x IH]; simpl; f_equal; auto. Qed.

(** A line with no LF, then CRLF: the scan stops right after the CRLF. *)
Lemma find_line (l rest : list byte) :
  forallb (fun c => negb (Byte.eqb c LF)) l = true ->
  find_crlf_inclusive 0 (l ++ crlf ++ rest) = Ok (Some (length l + 2)).
Proof.
  intros Hl. unfold find_crlf_inclusive. simpl skipn.
  rewrite (position_app_none _ l) by exact Hl.
  assert (Hp : position (fun item => Byte.eqb item LF) (CR :: LF :: rest) = Some 1)
    by reflexivity.
  rewrite Hp. cbv beta iota delta [option_map].
  unfold at_. rewrite app_nth2 by lia.
  replace (0 + (length l + 1 - 1) - length l) with 0 by lia.
  cbn. f_equal. f_equal. lia.
Qed.

Lemma digits_no_lf (ds : list byte) :
  forallb is_digit ds = true -> forallb (fun c => negb (Byte.eqb c LF)) ds = true.
Proof.
  induction ds as [|c ds IH]; simpl; auto.
  intros H. apply andb_prop in H as [Hc Hds].
  rewrite (digit_not _ LF Hc eq_refl). simpl. auto.
Qed.

(** Claim C3: in line state, when the next complete line ends with a
    well-formed announcement [{n}] ([n] a [u32] written in decimal digits):
    if [n] exceeds [max_literal_size] the decoder answers
    [SendLiteralReject(n)], drops everything up to and including that line
    and returns to [ReadLine{0}]; otherwise ([n <= max_literal_size]) it
    answers [SendLiteralAck(n)], keeps the buffer and waits for [n] literal
    bytes in [ReadLiteral]. *)
Theorem literal_announcement_ack_or_reject
    (Cmd : Type) (command : list byte -> option (list byte * Cmd))
    (max : N) (acc : nat) (pre line ds rest : list byte) (n : N) :
  length pre = acc ->
  forallb (fun c => negb (Byte.eqb c LF)) line = true ->
  ds <> [] -> forallb is_digit ds = true ->
  decimal_value ds = n -> (n < 2 ^ 32)%N ->
  let src := pre ++ line ++ [x7b] ++ ds ++ [x7d] ++ crlf ++ rest in
  ((max < n)%N ->
     decode Cmd command (mkCodec (ReadLine acc) max) src =
     Returned (Ok (Some (OActionRequired (SendLiteralReject n))),
               mkCodec (ReadLine 0) max, rest)) /\
  ((n <= max)%N ->
     decode Cmd command (mkCodec (ReadLine acc) max) src =
     Returned (Ok (Some (OActionRequired (SendLiteralAck n))),
               mkCodec (ReadLiteral (acc + length line + length ds + 4) n) max, src)).
Proof.
  intros Hpre Hline Hne Hd Hv Hlt src.
  set (L := line ++ [x7b] ++ ds ++ [x7d]).
  assert (Hsrc : src = pre ++ L ++ crlf ++ rest)
    by (unfold src, L; now rewrite <- !app_assoc).
  assert (HL : forallb (fun c => negb (Byte.eqb c LF)) L = true).
  { unfold L. rewrite !forallb_app, Hline, (digits_no_lf ds Hd). reflexivity. }
  assert (Hfind : find_crlf_inclusive acc src = Ok (Some (length L + 2))).
  { rewrite find_crlf_inclusive_skipn, Hsrc, skipn_exact by auto.
    now apply find_line. }
  assert (Hfirst : firstn (acc + (length L + 2) - 2) src = (pre ++ line) ++ [x7b] ++ ds ++ [x7d]).
  { rewrite Hsrc. replace (acc + (length L + 2) - 2) with (length (pre ++ L))
      by (rewrite length_app; lia).
    rewrite app_assoc, firstn_exact by reflexivity.
    unfold L. now rewrite app_assoc. }
  assert (Hlit : parse_literal (firstn (acc + (length L + 2) - 2) src) = Ok (Some n)).
  { rewrite Hfirst. now apply parse_literal_announcement. }
  assert (HlenL : length L = length line + length ds + 2)
    by (unfold L; rewrite !length_app; simpl; lia).
  unfold decode; cbn [state max_literal_size]; unfold decode_read_line.
  rewrite Hfind, Hlit.
  split; intros Hmax.
  - destruct (N.ltb_spec max n); [|lia].
    rewrite Hsrc, (app_assoc L crlf rest), (app_assoc pre (L ++ crlf) rest), skipn_exact;
      [reflexivity|].
    rewrite !length_app; simpl; lia.
  - destruct (N.ltb_spec max n); [lia|].
    replace (acc + (length L + 2)) with (acc + length line + length ds + 4) by lia.
    reflexivity.
Qed.

Lemma literal_announcement_ack_or_reject_witness :
  let src := b "a login {999999}" ++ crlf in
  decode _ ParserModel.command (mkCodec (ReadLine 0) 1024) src =
  Returned (Ok (Some (OActionRequired (SendLiteralReject 999999))),
            mkCodec (ReadLine 0) 1024, []).
Proof.
  intros src.
  refine (proj1 (literal_announcement_ack_or_reject _ ParserModel.command 1024 0
                   [] (b "a login ") (b "999999") [] 999999 _ _ _ _ _ _) _);
    try reflexivity; try discriminate; vm_compute; reflexivity.
Defined.

(** Claim C7: whenever [decode] returns [Ok(None)], the buffer is exactly
    the one it was given; only the codec's bookkeeping may change (its
    [max_literal_size] stays as well). *)
Theorem decode_none_keeps_buffer
    (Cmd : Type) (command : list byte -> option (list byte * Cmd))
    (codec : ImapServerCodec) (src : list byte) (codec' : ImapServerCodec) (src' : list byte) :
  decode Cmd command codec src = Returned (Ok None, codec', src') ->
  src' = src /\ max_literal_size codec' = max_literal_size codec.
Proof.
  unfold decode. destruct codec as [[acc|acc needed] max]; simpl; intros H.
  - eapply decode_read_line_none_src; [exact H|reflexivity].
  - destruct (_ <=? _)%N.
    + eapply decode_read_line_none_src; [exact H|reflexivity].
    + injection H as <- <-. auto.
Qed.

Lemma decode_none_keeps_buffer_witness :
  let src := b "a no" in
  decode _ ParserModel.command (ImapServerCodec_new 1024) src =
    Returned (Ok None, ImapServerCodec_new 1024, src) /\
  src = src /\ max_literal_size (ImapServerCodec_new 1024) = 1024%N.
Proof.
  intros src.
  assert (E : decode _ ParserModel.command (ImapServerCodec_new 1024) src =
              Returned (Ok None, ImapServerCodec_new 1024, src)) by (vm_compute; reflexivity).
  split; [exact E|].
  exact (decode_none_keeps_buffer _ ParserModel.command _ _ _ _ E).
Defined.

(** Claim C9: in [ReadLiteral{acc, needed}] the decoder returns [Ok(None)]
    (state and buffer unchanged) while fewer than [acc + needed] bytes are
    buffered; once the [needed] body bytes are there it continues in line
    state at [acc + needed], and the line scan depends only on the bytes
    after the body: CR and LF bytes inside the body are never looked at. *)
Theorem literal_body_opaque
    (Cmd : Type) (command : list byte -> option (list byte * Cmd))
    (max : N) (acc : nat) (needed : N) (src : list byte) :
  ((N.of_nat (length src) < N.of_nat acc + needed)%N ->
     decode Cmd command (mkCodec (ReadLiteral acc needed) max) src =
     Returned (Ok None, mkCodec (ReadLiteral acc needed) max, src)) /\
  (forall pre body post,
     src = pre ++ body ++ post -> length pre = acc -> length body = N.to_nat needed ->
     decode Cmd command (mkCodec (ReadLiteral acc needed) max) src =
       decode_read_line Cmd command max (acc + N.to_nat needed) src /\
     find_crlf_inclusive (acc + N.to_nat needed) src = find_crlf_inclusive 0 post).
Proof.
  split.
  - intros Hlt. unfold decode. simpl.
    destruct (N.leb_spec (N.of_nat acc + needed) (N.of_nat (length src))); [lia|reflexivity].
  - intros pre body post -> Hpre Hbody. split.
    + unfold decode. simpl.
      destruct (N.leb_spec (N.of_nat acc + needed) (N.of_nat (length (pre ++ body ++ post))));
        [reflexivity|].
      rewrite !length_app in H. lia.
    + rewrite find_crlf_inclusive_skipn, app_assoc, skipn_exact; [reflexivity|].
      rewrite length_app; lia.
Qed.

Lemma literal_body_opaque_witness :
  let pre := b "a login {5}" ++ crlf in
  let body := [x61; CR; LF; LF; x62] in
  let post := b " pass" ++ crlf in
  decode _ ParserModel.command (mkCodec (ReadLiteral 13 5) 1024) (pre ++ [x61; CR; LF]) =
    Returned (Ok None, mkCodec (ReadLiteral 13 5) 1024, pre ++ [x61; CR; LF]) /\
  (decode _ ParserModel.command (mkCodec (ReadLiteral 13 5) 1024) (pre ++ body ++ post) =
     decode_read_line _ ParserModel.command 1024 (13 + N.to_nat 5) (pre ++ body ++ post) /\
   find_crlf_inclusive (13 + N.to_nat 5) (pre ++ body ++ post) = find_crlf_inclusive 0 post).
Proof.
  intros pre body post. split.
  - apply (proj1 (literal_body_opaque _ ParserModel.command 1024 13 5 (pre ++ [x61; CR; LF]))).
    vm_compute. reflexivity.
  - apply (proj2 (literal_body_opaque _ ParserModel.command 1024 13 5 (pre ++ body ++ post))
             pre body post); reflexivity.
Defined.

(** Claim C6 (fails): the brace scan and the number parse of a completed
    line. A [{+5}] announcement is not ASCII decimal digits, yet it is
    acknowledged as a 5-byte literal ([from_str_radix] accepts the sign); a
    line [" }"] without any [{] after a 1-byte literal gives [BadNumber], not
    [NoOpeningBrace], because the scan runs over the whole framed command
    [buf[..consumed-2]]; and a line ["}"] whose preceding literal body ends in
    [{12] is acknowledged as a 12-byte literal. Whatever the grammar. *)
Theorem literal_scan_whole_prefix
    (Cmd : Type) (command : list byte -> option (list byte * Cmd)) :
  fst (feed Cmd command (ImapServerCodec_new 1024) [] [b "a {+5}" ++ crlf]) =
    [Ok (Some (OActionRequired (SendLiteralAck 5)))] /\
  feed Cmd command (ImapServerCodec_new 1024) [] [b "a {1}" ++ crlf; b "x }" ++ crlf] =
    ([Ok (Some (OActionRequired (SendLiteralAck 1))); Err (ELiteral BadNumber)],
     Some (ImapServerCodec_new 1024, [])) /\
  fst (feed Cmd command (ImapServerCodec_new 1024) [] [b "a {4}" ++ crlf; b "x{12"; b "}" ++ crlf]) =
    [Ok (Some (OActionRequired (SendLiteralAck 4))); Ok None;
     Ok (Some (OActionRequired (SendLiteralAck 12)))].
Proof. split; [|split]; vm_compute; reflexivity. Qed.

(** Claim C4 (fails): after [CommandParsingFailed] the state keeps the
    incremented [to_consume_acc] while the framed bytes are advanced out of
    the buffer. With a 12-byte unparsable line first, the well-formed
    [a noop] that follows is never delivered: [decode] answers [Ok(None)]
    with the whole command in the buffer, where a fresh decoder returns it. *)
Theorem parse_error_keeps_offset :
  ParserModel.command (b "a noop" ++ crlf) = Some ([], Encoder.mkCommand (b "a") Encoder.Noop) /\
  ParserModel.feed (ImapServerCodec_new 1024) [] [b "xxxxxxxxxx" ++ crlf; b "a noop" ++ crlf] =
    ([Err CommandParsingFailed; Ok None],
     Some (mkCodec (ReadLine 12) 1024, b "a noop" ++ crlf)) /\
  fst (ParserModel.feed (ImapServerCodec_new 1024) [] [b "a noop" ++ crlf]) =
    [Ok (Some (OCommand (Encoder.mkCommand (b "a") Encoder.Noop)))].
Proof. split; [|split]; vm_compute; reflexivity. Qed.

(** Claim C5 (fails): from the state left by a parse error (same defect as
    C4), the framed input [buf[..consumed]] spans two commands; the parser
    succeeds on it with a non-empty remainder and [assert!(rem.is_empty())]
    panics. *)
Theorem stale_offset_assert_panics :
  ParserModel.command (b "a noop" ++ crlf ++ b "a noop" ++ crlf) =
    Some (b "a noop" ++ crlf, Encoder.mkCommand (b "a") Encoder.Noop) /\
  ParserModel.feed (ImapServerCodec_new 1024) []
    [b "xxxxxxxxxx" ++ crlf; b "a noop" ++ crlf ++ b "a noop" ++ crlf] =
    ([Err CommandParsingFailed], None) /\
  ParserModel.decode (mkCodec (ReadLine 12) 1024) (b "a noop" ++ crlf ++ b "a noop" ++ crlf) =
    Panicked.
Proof. split; [|split]; vm_compute; reflexivity. Qed.

End DecoderFacts.

(** * The source's unit tests, replayed on the model *)
Module SourceTests.
Import Decoder ParserModel.

(** [tokio::test::find_crlf_inclusive] *)
Example find_crlf_inclusive_cases :
  find_crlf_inclusive 0 (b "A" ++ [CR]) = Ok None /\
  find_crlf_inclusive 0 (b "A" ++ crlf) = Ok (Some 3) /\
  find_crlf_inclusive 0 (b "A" ++ [LF]) = Err NotCrLf /\
  find_crlf_inclusive 0 [LF] = Err NotCrLf /\
  find_crlf_inclusive 5 (b "aaa" ++ crlf ++ b "A" ++ [CR]) = Ok None /\
  find_crlf_inclusive 5 (b "aaa" ++ crlf ++ b "A" ++ crlf) = Ok (Some 3) /\
  find_crlf_inclusive 5 (b "aaa" ++ crlf ++ b "A" ++ [LF]) = Err NotCrLf /\
  find_crlf_inclusive 5 (b "aaa" ++ crlf ++ [LF]) = Err NotCrLf.
Proof. vm_compute. repeat split. Qed.

(** [tokio::test::decoder_line] *)
Example decoder_line :
  fst (feed (ImapServerCodec_new 1024) [] [[]; b "a noop"; [CR]; [LF]; []; b "xxxx"; crlf]) =
  [Ok None; Ok None; Ok None;
   Ok (Some (OCommand (Encoder.mkCommand (b "a") Encoder.Noop)));
   Ok None; Ok None; Err CommandParsingFailed].
Proof. vm_compute. reflexivity. Qed.

(** [tokio::test::decoder_literal] *)
Example decoder_literal :
  fst (feed (ImapServerCodec_new 1024) []
         [[]; b "a login"; b " {"; b "5"; b "}"; crlf; b "a"; b "l"; b "i"; b "ce"; b " ";
          b "password" ++ crlf]) =
  [Ok None; Ok None; Ok None; Ok None; Ok None;
   Ok (Some (OActionRequired (SendLiteralAck 5)));
   Ok None; Ok None; Ok None; Ok None; Ok None;
   Ok (Some (OCommand (Encoder.mkCommand (b "a")
     (Encoder.Login (Encoder.AS_String (Encoder.IS_Literal (Encoder.mkLiteral (b "alice") Encoder.Sync)))
                    (Encoder.AS_Atom (b "password"))))))].
Proof. vm_compute. reflexivity. Qed.

(** [tokio::test::decoder_error] *)
Example decoder_error :
  fst (feed (ImapServerCodec_new 1024) [] [b "xxx" ++ crlf; b "a noop" ++ crlf]) =
  [Err CommandParsingFailed; Ok (Some (OCommand (Encoder.mkCommand (b "a") Encoder.Noop)))].
Proof. vm_compute. reflexivity. Qed.

(** [codec::encode::tests]: [A LOGIN alice pass] is one Line (scenario S1). *)
Example encode_login_atoms :
  Encoder.encoded_items
    (Encoder.encode (Encoder.Command_encode
       (Encoder.mkCommand (b "A") (Encoder.Login (Encoder.AS_Atom (b "alice")) (Encoder.AS_Atom (b "pass")))))) =
  [Encoder.Line (b "A LOGIN alice pass" ++ crlf)].
Proof. vm_compute. reflexivity. Qed.

End SourceTests.

(** * Further properties of the encoder *)
Module EncoderUtilsFacts.
Import Encoder EncoderUtils EncoderFacts.

(** The bytes a rule program writes, each literal with its announcement
    inline before its data. *)
Fixpoint flat (p : Enc) : list byte :=
  match p with
  | EWrite bs => bs
  | ESeq p1 p2 => flat p1 ++ flat p2
  | ELiteral data mode => literal_announcement mode (length data) ++ data
  end.

(** [parts] joined by [sep], with no separator before the first or after
    the last. *)
Fixpoint sep_by (sep : list byte) (parts : list (list byte)) : list byte :=
  match parts with
  | [] => []
  | x :: rest =>
      match rest with
      | [] => x
      | _ :: _ => x ++ sep ++ sep_by sep rest
      end
  end.

(** The bytes of a sequence set: digits, [,], [:] and [*]. *)
Definition seq_char (c : byte) : bool :=
  is_digit c || Byte.eqb c x2c || Byte.eqb c x3a || Byte.eqb c x2a.

Lemma run_flat (p : Enc) (ctx : EncodeContext) :
  concat (map payload (items (run p ctx))) ++ accumulator (run p ctx) =
  concat (map payload (items ctx)) ++ accumulator ctx ++ flat p.
Proof.
  revert ctx; induction p as [bs|p1 IH1 p2 IH2|data mode]; intros ctx.
  - simpl. now rewrite app_assoc.
  - simpl. rewrite IH2, app_assoc, IH1. now rewrite <- !app_assoc.
  - rewrite run_literal. simpl. rewrite map_app, concat_app. simpl.
    now rewrite app_nil_r, !app_nil_r, <- !app_assoc.
Qed.

Lemma into_items_payload (ctx : EncodeContext) :
  concat (map payload (into_items ctx)) = concat (map payload (items ctx)) ++ accumulator ctx.
Proof.
  unfold into_items. destruct (accumulator ctx) as [|x l] eqn:E.
  - now rewrite app_nil_r.
  - rewrite map_app, concat_app. simpl. now rewrite app_nil_r.
Qed.

Lemma dump_encode_flat (p : Enc) : dump (encode p) = flat p.
Proof.
  unfold dump, encode. simpl. rewrite fold_dump_app, into_items_payload, run_flat.
  reflexivity.
Qed.

Lemma split_last_snoc {A : Type} (h : list A) (x : A) :
  split_last (h ++ [x]) = Some (x, h).
Proof. unfold split_last. rewrite rev_app_distr. simpl. now rewrite rev_involutive. Qed.

Lemma snoc_cases {A : Type} (l : list A) :
  l = [] \/ exists h x, l = h ++ [x].
Proof.
  induction l as [|a l IH] using rev_ind; [now left|right; eauto].
Qed.

Lemma flat_for_each_sep {A : Type} (enc : A -> Enc) (head : list A) (sep : list byte) (p0 : Enc) :
  flat (fold_left (fun p item => p ;; enc item ;; EWrite sep) head p0) =
  flat p0 ++ concat (map (fun x => flat (enc x) ++ sep) head).
Proof.
  revert p0; induction head as [|y head IH]; intros p0; simpl.
  - now rewrite app_nil_r.
  - rewrite IH. simpl. now rewrite <- !app_assoc.
Qed.

Lemma sep_by_snoc (sep : list byte) (f : list byte) (parts : list (list byte)) :
  sep_by sep (parts ++ [f]) = concat (map (fun x => x ++ sep) parts) ++ f.
Proof.
  induction parts as [|y parts IH]; simpl; [reflexivity|].
  destruct (parts ++ [f]) eqn:E; [destruct parts; discriminate|].
  rewrite IH. now rewrite <- !app_assoc.
Qed.

Lemma flat_join (A : Type) (enc : A -> Enc) (l : list A) (sep : list byte) :
  flat (join_serializable enc l sep) = sep_by sep (map (fun x => flat (enc x)) l).
Proof.
  destruct (snoc_cases l) as [->|[h [x ->]]]; [reflexivity|].
  unfold join_serializable. rewrite split_last_snoc. simpl.
  unfold for_each_sep. rewrite flat_for_each_sep, map_app. simpl.
  rewrite sep_by_snoc, map_map. reflexivity.
Qed.


Definition lines_nonempty (l : list Fragment) : Prop :=
  forall i data, nth_error l i = Some (Line data) -> data <> [].

Definition literals_announced (l : list Fragment) : Prop :=
  forall i data mode, nth_error l i = Some (Literal data mode) ->
  exists h, 0 < i /\
    nth_error l (i - 1) = Some (Line (h ++ literal_announcement mode (length data))).

Lemma lines_nonempty_app (l l' : list Fragment) :
  lines_nonempty l -> lines_nonempty l' -> lines_nonempty (l ++ l').
Proof.
  intros H1 H2 i d E. rewrite nth_error_app in E.
  destruct (i <? length l); eauto.
Qed.

Lemma literals_announced_line (l : list Fragment) (x : list byte) :
  literals_announced l -> literals_announced (l ++ [Line x]).
Proof.
  intros H i d m E. rewrite nth_error_app in E.
  destruct (Nat.ltb_spec i (length l)).
  - destruct (H i d m E) as [h [Hi E']]. exists h. split; [exact Hi|].
    rewrite nth_error_app1 by lia. exact E'.
  - destruct (i - length l) as [|[|k]]; discriminate.
Qed.

Lemma literals_announced_literal (l : list Fragment) (a data : list byte) (mode : LiteralMode) :
  literals_announced l ->
  literals_announced (l ++ [Line (a ++ literal_announcement mode (length data)); Literal data mode]).
Proof.
  intros H i d m E. rewrite nth_error_app in E.
  destruct (Nat.ltb_spec i (length l)).
  - destruct (H i d m E) as [h [Hi E']]. exists h. split; [exact Hi|].
    rewrite nth_error_app1 by lia. exact E'.
  - destruct (i - length l) as [|[|[|k]]] eqn:K; simpl in E; try discriminate.
    injection E as <- <-. exists a. split; [lia|].
    rewrite nth_error_app2 by lia. replace (i - 1 - length l) with 0 by lia. reflexivity.
Qed.

Lemma announcement_nonempty (mode : LiteralMode) (len : nat) (a : list byte) :
  a ++ literal_announcement mode len <> [].
Proof. destruct a; destruct mode; discriminate. Qed.

Lemma run_keeps_shape (p : Enc) (ctx : EncodeContext) :
  lines_nonempty (items ctx) -> literals_announced (items ctx) ->
  lines_nonempty (items (run p ctx)) /\ literals_announced (items (run p ctx)).
Proof.
  revert ctx; induction p as [bs|p1 IH1 p2 IH2|data mode]; intros ctx H1 H2.
  - split; assumption.
  - destruct (IH1 ctx H1 H2) as [H1' H2']. exact (IH2 _ H1' H2').
  - rewrite run_literal. simpl. split.
    + apply lines_nonempty_app; [exact H1|].
      intros [|[|[|i]]] d E; simpl in E; try discriminate.
      injection E as <-. apply announcement_nonempty.
    + now apply literals_announced_literal.
Qed.

Lemma encode_shape (p : Enc) :
  lines_nonempty (encoded_items (encode p)) /\ literals_announced (encoded_items (encode p)).
Proof.
  destruct (run_keeps_shape p EncodeContext_new) as [H1 H2];
    [intros [|i] d E; discriminate|intros [|i] d m E; discriminate|].
  unfold encode, into_items. simpl.
  destruct (accumulator (run p EncodeContext_new)) as [|x acc] eqn:E.
  - split; assumption.
  - split.
    + apply lines_nonempty_app; [exact H1|].
      intros [|[|i]] d Ed; simpl in Ed; try discriminate.
      injection Ed as <-. discriminate.
    + now apply literals_announced_line.
Qed.

Lemma digit_byte (n : N) :
  exists c, Byte.of_N (48 + n mod 10) = Some c /\ is_digit c = true /\ digit_value c = (n mod 10)%N.
Proof.
  pose proof (N.mod_lt n 10 ltac:(lia)) as Hlt.
  remember (n mod 10)%N as m eqn:Hm. clear Hm.
  pose proof (Byte.to_of_N_option_map (48 + m)) as H.
  replace ((48 + m <=? 255)%N) with true in H by (symmetry; apply N.leb_le; lia).
  destruct (Byte.of_N (48 + m)) as [c|]; cbn [option_map] in H; [|discriminate].
  assert (Hc : Byte.to_N c = (48 + m)%N) by (injection H; auto).
  exists c. split; [reflexivity|].
  unfold is_digit, digit_value. rewrite Hc. split; [|lia].
  apply andb_true_intro; split; apply N.leb_le; lia.
Qed.

Lemma dec_go_S (f : nat) (n : N) (acc : list byte) :
  dec_go (S f) n acc =
  (let d := match Byte.of_N (48 + n mod 10)%N with Some c => c | None => x30 end in
   if (n <? 10)%N then d :: acc else dec_go f (n / 10)%N (d :: acc)).
Proof. reflexivity. Qed.

Lemma dec_go_digits (fuel : nat) (n : N) (acc : list byte) :
  0 < fuel -> (n < 10 ^ N.of_nat fuel)%N ->
  exists ds, dec_go fuel n acc = ds ++ acc /\ ds <> [] /\
    forallb is_digit ds = true /\ DecoderFacts.decimal_value ds = n.
Proof.
  revert n acc; induction fuel as [|f IH]; intros n acc Hf Hn; [lia|].
  destruct (digit_byte n) as [c [Ec [Hc Vc]]].
  rewrite dec_go_S, Ec. cbv zeta.
  destruct (N.ltb_spec n 10).
  - exists [c]. split; [reflexivity|]. split; [discriminate|].
    split; [simpl; now rewrite Hc|].
    unfold DecoderFacts.decimal_value, DecoderFacts.value_from. simpl.
    rewrite Vc, N.mod_small by lia. lia.
  - destruct f as [|f].
    { simpl in Hn. lia. }
    assert (Hq : (n / 10 < 10 ^ N.of_nat (S f))%N).
    { apply N.Div0.div_lt_upper_bound.
      rewrite Nat2N.inj_succ, N.pow_succ_r' in Hn. exact Hn. }
    destruct (IH (n / 10)%N (c :: acc) ltac:(lia) Hq) as [ds [E [Hne [Hd Hv]]]].
    exists (ds ++ [c]). split; [rewrite E, <- app_assoc; reflexivity|].
    split; [destruct ds; discriminate|].
    split; [rewrite forallb_app, Hd; simpl; now rewrite Hc|].
    unfold DecoderFacts.decimal_value, DecoderFacts.value_from in *.
    rewrite fold_left_app, Hv. simpl. rewrite Vc.
    pose proof (N.div_mod n 10 ltac:(lia)). lia.
Qed.

Lemma to_dec_digits (n : N) :
  to_dec n <> [] /\ forallb is_digit (to_dec n) = true /\ DecoderFacts.decimal_value (to_dec n) = n.
Proof.
  unfold to_dec.
  assert (Hb : (n < 10 ^ N.of_nat (S (N.to_nat (N.size n))))%N).
  { rewrite Nat2N.inj_succ, N2Nat.id.
    pose proof (N.size_gt n).
    pose proof (N.pow_le_mono_l 2 10 (N.size n) ltac:(lia)).
    pose proof (N.pow_le_mono_r 10 (N.size n) (N.succ (N.size n)) ltac:(lia) ltac:(lia)).
    lia. }
  destruct (dec_go_digits (S (N.to_nat (N.size n))) n [] (Nat.lt_0_succ _) Hb) as [ds [E H]].
  rewrite E, app_nil_r. exact H.
Qed.

Lemma sep_by_forallb (P : byte -> bool) (sep : list byte) (parts : list (list byte)) :
  forallb P sep = true -> forallb (forallb P) parts = true ->
  forallb P (sep_by sep parts) = true.
Proof.
  intros Hs. induction parts as [|x parts IH]; simpl; [reflexivity|].
  intros H. apply andb_prop in H as [Hx Hp].
  destruct parts as [|y parts]; [exact Hx|].
  rewrite !forallb_app, Hx, Hs, (IH Hp). reflexivity.
Qed.

Lemma sep_by_space (f : N -> list byte) (n : N) (r : list N) :
  b " " ++ sep_by (b " ") (map f (n :: r)) = concat (map (fun m => b " " ++ f m) (n :: r)).
Proof.
  change (b " ") with [x20].
  revert n; induction r as [|m r IH]; intros n; [simpl; now rewrite app_nil_r|].
  change (map f (n :: m :: r)) with (f n :: map f (m :: r)).
  change (concat (map (fun k => [x20] ++ f k) (n :: m :: r)))
    with (([x20] ++ f n) ++ concat (map (fun k => [x20] ++ f k) (m :: r))).
  rewrite <- IH. cbn [sep_by map]. now rewrite <- !app_assoc.
Qed.

(** Extra X1: [dump] of an encoded rule program is the bytes the program
    writes, in order, each literal as its announcement followed by its data;
    [EncodeContext::dump] of the context the rule ran on gives the same
    bytes; and the dump of two rules run one after the other is the
    concatenation of their dumps. *)
Theorem dump_is_written_bytes (p q : Enc) :
  dump (encode p) = flat p /\
  EncodeContext_dump (run p EncodeContext_new) = dump (encode p) /\
  dump (encode (p ;; q)) = dump (encode p) ++ dump (encode q).
Proof.
  split; [apply dump_encode_flat|]. split; [reflexivity|].
  rewrite !dump_encode_flat. reflexivity.
Qed.

(** Extra X2: [encode] never yields an empty [Line] fragment: a literal's
    line holds at least its announcement, and [into_items] flushes the
    accumulator only when it is non-empty. *)
Theorem encode_no_empty_line (p : Enc) :
  ~ In (Line []) (encoded_items (encode p)).
Proof.
  intros Hin. apply In_nth_error in Hin as [i Hi].
  exact (proj1 (encode_shape p) i [] Hi eq_refl).
Qed.

(** Extra X3: every [Literal] fragment of an encoded rule program is
    directly preceded by a [Line] fragment that ends with the announcement
    of that literal: [{N}\r\n] ([{N+}\r\n] for NonSync) with [N] its length. *)
Theorem literal_fragment_announced (p : Enc) (i : nat) (data : list byte) (mode : LiteralMode) :
  nth_error (encoded_items (encode p)) i = Some (Literal data mode) ->
  exists h, 0 < i /\
    nth_error (encoded_items (encode p)) (i - 1) =
      Some (Line (h ++ literal_announcement mode (length data))).
Proof. apply (proj2 (encode_shape p)). Qed.

Lemma literal_fragment_announced_witness :
  let p := Command_encode (mkCommand (b "A") (Login (AS_Atom (b "alice"))
                            (AS_String (IS_Literal (mkLiteral [xca; xfe] NonSync))))) in
  nth_error (encoded_items (encode p)) 1 = Some (Literal [xca; xfe] NonSync) /\
  exists h, 0 < 1 /\
    nth_error (encoded_items (encode p)) (1 - 1) =
      Some (Line (h ++ literal_announcement NonSync (length [xca; xfe]))).
Proof.
  intros p.
  assert (E : nth_error (encoded_items (encode p)) 1 = Some (Literal [xca; xfe] NonSync))
    by (vm_compute; reflexivity).
  split; [exact E|].
  exact (literal_fragment_announced p 1 [xca; xfe] NonSync E).
Defined.

(** Extra X4: [join_serializable] writes the elements' encodings separated
    by [sep], with no separator before the first or after the last; an
    empty slice writes nothing. *)
Theorem join_serializable_bytes (A : Type) (enc : A -> Enc) (elements : list A) (sep : list byte) :
  dump (encode (join_serializable enc elements sep)) =
  sep_by sep (map (fun x => dump (encode (enc x))) elements).
Proof.
  rewrite !dump_encode_flat, flat_join. f_equal.
  apply map_ext. intros x. now rewrite dump_encode_flat.
Qed.

(** Extra X5: [List1OrNil] writes [NIL] for an empty list and otherwise the
    bytes of [join_serializable] of the same list and separator, enclosed in
    parentheses. *)
Theorem List1OrNil_bytes (A : Type) (enc : A -> Enc) (elements : list A) (sep : list byte) :
  dump (encode (List1OrNil enc elements sep)) =
  match elements with
  | [] => b "NIL"
  | _ :: _ => b "(" ++ dump (encode (join_serializable enc elements sep)) ++ b ")"
  end.
Proof.
  rewrite !dump_encode_flat.
  destruct (snoc_cases elements) as [->|[h [x ->]]]; [reflexivity|].
  destruct (h ++ [x]) as [|y l] eqn:E; [destruct h; discriminate|].
  rewrite <- E. unfold List1OrNil, join_serializable. rewrite split_last_snoc.
  simpl. now rewrite <- !app_assoc.
Qed.

(** Extra X6: [List1AttributeValueOrNil] over pairs writes the same bytes
    as [List1OrNil] over the flattened list [attr1 value1 attr2 value2 ..]
    with a space separator ([NIL] when empty). *)
Theorem List1AttributeValueOrNil_bytes (A : Type) (enc : A -> Enc) (elements : list (A * A)) :
  dump (encode (List1AttributeValueOrNil enc elements)) =
  dump (encode (List1OrNil enc (flat_map (fun '(attribute, value) => [attribute; value]) elements)
                  (b " "))).
Proof.
  rewrite !dump_encode_flat.
  destruct (snoc_cases elements) as [->|[h [[a v] ->]]]; [reflexivity|].
  rewrite flat_map_app. simpl flat_map. rewrite ?app_nil_r.
  replace (flat_map (fun '(attribute, value) => [attribute; value]) h ++ [a; v])
    with ((flat_map (fun '(attribute, value) => [attribute; value]) h ++ [a]) ++ [v])
    by now rewrite <- app_assoc.
  unfold List1AttributeValueOrNil, List1OrNil. rewrite !split_last_snoc.
  unfold for_each_sep. simpl.
  rewrite flat_for_each_sep.
  assert (Hf : forall q,
      flat (fold_left (fun p '(attribute, value) =>
                         p ;; enc attribute ;; EWrite (b " ") ;; enc value ;; EWrite (b " "))
                      h q) =
      flat q ++ concat (map (fun x => flat (enc x) ++ b " ")
                            (flat_map (fun '(attribute, value) => [attribute; value]) h))).
  { induction h as [|[a' v'] h IH]; intros q; simpl; [now rewrite app_nil_r|].
    rewrite IH. simpl. now rewrite <- !app_assoc. }
  rewrite Hf, map_app, concat_app. simpl. now rewrite <- !app_assoc.
Qed.

(** Extra X7: [Data::Search(seqs)] is written as [* SEARCH], then a space
    and the decimal number for each element, then CRLF: the empty case
    (written without the trailing space) fits the same pattern. *)
Theorem search_bytes (seqs : list N) :
  dump (encode (Data_encode (Search_arm seqs))) =
  b "* SEARCH" ++ concat (map (fun n => b " " ++ to_dec n) seqs) ++ crlf.
Proof.
  rewrite dump_encode_flat. destruct seqs as [|n r]; [reflexivity|].
  unfold Data_encode, Search_arm. simpl flat. rewrite flat_join.
  change (b "* SEARCH ") with (b "* SEARCH" ++ b " ").
  rewrite <- (sep_by_space to_dec n r). now rewrite <- !app_assoc.
Qed.

(** Extra X8: the encoding of a [SequenceSet] consists only of ASCII
    digits, [,], [:] and [*]; in particular it never contains a space, CR
    or LF. *)
Theorem SequenceSet_bytes (set : list Sequence) :
  forallb seq_char (dump (encode (SequenceSet_encode set))) = true.
Proof.
  rewrite dump_encode_flat. unfold SequenceSet_encode. rewrite flat_join.
  apply sep_by_forallb; [reflexivity|].
  assert (Hs : forall s, forallb seq_char (flat (SeqOrUid_encode s)) = true).
  { intros [number|]; [|reflexivity]. simpl.
    pose proof (proj1 (proj2 (to_dec_digits number))) as Hd.
    induction (to_dec number) as [|c l IH]; simpl in *; [reflexivity|].
    apply andb_prop in Hd as [Hc Hl]. unfold seq_char at 1. rewrite Hc. simpl. auto. }
  induction set as [|s set IH]; simpl; [reflexivity|].
  rewrite IH, andb_true_r.
  destruct s as [s|s1 s2]; simpl; [apply Hs|].
  rewrite !forallb_app, !Hs. reflexivity.
Qed.

End EncoderUtilsFacts.

(** * Comparing secrets *)
Module SecretCompareFacts.
Import Security SecretCompare.

(** Every byte, by its value. *)
Definition all_bytes : list byte :=
  flat_map (fun n => match Byte.of_N (N.of_nat n) with Some c => [c] | None => [] end)
           (seq 0 256).

Lemma all_bytes_complete (a : byte) : existsb (Byte.eqb a) all_bytes = true.
Proof. destruct a; vm_compute; reflexivity. Qed.

Lemma ct_eq_u8_table :
  forallb (fun a => forallb (fun c => N.eqb (ct_eq_u8 a c) (if Byte.eqb a c then 1 else 0))
                            all_bytes) all_bytes = true.
Proof. vm_compute. reflexivity. Qed.

Lemma in_all_bytes (a : byte) : In a all_bytes.
Proof.
  destruct (proj1 (existsb_exists _ _) (all_bytes_complete a)) as [x [Hx E]].
  apply Byte.byte_dec_bl in E. now subst.
Qed.

Lemma ct_eq_u8_spec (a c : byte) : ct_eq_u8 a c = if Byte.eqb a c then 1%N else 0%N.
Proof.
  pose proof ct_eq_u8_table as T.
  rewrite forallb_forall in T. specialize (T a (in_all_bytes a)).
  rewrite forallb_forall in T. specialize (T c (in_all_bytes c)).
  now apply N.eqb_eq in T.
Qed.

Lemma bytes_eqb_spec (a c : list byte) : bytes_eqb a c = true <-> a = c.
Proof.
  revert c; induction a as [|x a IH]; intros [|y c]; simpl; split; intros H;
    try discriminate; try reflexivity.
  - apply andb_prop in H as [Hxy Hac]. apply Byte.byte_dec_bl in Hxy.
    apply IH in Hac. now subst.
  - injection H as <- <-. rewrite Byte.byte_dec_lb by reflexivity. simpl.
    now apply IH.
Qed.

Lemma ct_fold (a c : list byte) (x : N) :
  length a = length c -> (x = 0 \/ x = 1)%N ->
  fold_left (fun x '(ai, bi) => N.land x (ct_eq_u8 ai bi)) (combine a c) x =
  if bytes_eqb a c then x else 0%N.
Proof.
  revert c x; induction a as [|ai a IH]; intros [|bi c] x Hl Hx; simpl in Hl; try discriminate.
  - reflexivity.
  - simpl. rewrite ct_eq_u8_spec.
    destruct (Byte.eqb ai bi); simpl.
    + rewrite IH by (lia || (destruct Hx as [->| ->]; auto)).
      destruct Hx as [->| ->]; reflexivity.
    + rewrite N.land_0_r, IH by (lia || auto). now destruct (bytes_eqb a c).
Qed.

Lemma ct_eq_spec (a c : list byte) : ct_eq a c = if bytes_eqb a c then 1%N else 0%N.
Proof.
  unfold ct_eq. destruct (Nat.eqb_spec (length a) (length c)) as [E|E]; simpl.
  - apply ct_fold; auto.
  - destruct (bytes_eqb a c) eqn:B; [|reflexivity].
    apply bytes_eqb_spec in B. subst. contradiction.
Qed.

(** Extra X18: [compare_ct] returns [true] exactly when the secret's bytes
    equal the other bytes (different lengths give [false]), and [==] on two
    secrets holds exactly when they are equal: the constant-time comparison
    is byte equality. *)
Theorem compare_ct_is_equality (s t : Secret (list byte)) (other : list byte) :
  (compare_ct s other = true <-> expose_secret s = other) /\
  (Secret_eq s t = true <-> s = t).
Proof.
  unfold compare_ct, Secret_eq. rewrite !ct_eq_spec. split.
  - rewrite <- bytes_eqb_spec. destruct (bytes_eqb _ _); simpl; split; congruence.
  - destruct s as [x], t as [y]. simpl.
    destruct (bytes_eqb x y) eqn:B; simpl.
    + apply bytes_eqb_spec in B. subst. split; reflexivity.
    + split; [discriminate|]. intros E. injection E as ->.
      assert (bytes_eqb y y = true) by (now apply bytes_eqb_spec). congruence.
Qed.

End SecretCompareFacts.

(** * Further properties of the decoder *)
Module DecoderMoreFacts.
Import Encoder Decoder DecoderFacts.

Lemma position_some (p : byte -> bool) (l : list byte) (pos : nat) :
  position p l = Some pos ->
  pos < length l /\ p (nth pos l x00) = true /\
  forallb (fun c => negb (p c)) (firstn pos l) = true.
Proof.
  revert pos; induction l as [|x l IH]; intros pos H; simpl in H; [discriminate|].
  destruct (p x) eqn:Px.
  - injection H as <-. simpl. split; [lia|]. split; [exact Px|reflexivity].
  - destruct (position p l) as [k|] eqn:E; simpl in H; [|discriminate].
    injection H as <-. destruct (IH k eq_refl) as [H1 [H2 H3]].
    simpl. rewrite Px. simpl. split; [lia|]. split; assumption.
Qed.

Lemma position_none_iff (p : byte -> bool) (l : list byte) :
  position p l = None <-> forallb (fun c => negb (p c)) l = true.
Proof.
  induction l as [|x l IH]; simpl; [tauto|].
  destruct (p x); simpl; [split; discriminate|].
  rewrite <- IH. destruct (position p l); simpl; split; intros H; congruence.
Qed.

Lemma find_crlf_inclusive_some_spec (skip : nat) (buf : list byte) (k : nat) :
  find_crlf_inclusive skip buf = Ok (Some k) ->
  2 <= k /\ skip + k <= length buf /\
  at_ buf (skip + k - 2) = CR /\ at_ buf (skip + k - 1) = LF /\
  forallb (fun c => negb (Byte.eqb c LF)) (firstn (k - 1) (skipn skip buf)) = true.
Proof.
  unfold find_crlf_inclusive.
  destruct (position _ (skipn skip buf)) as [pos|] eqn:E; [|discriminate].
  destruct (Byte.eqb (at_ buf (skip + (pos - 1))) CR) eqn:Ecr; simpl; intros H; [|discriminate].
  injection H as <-.
  destruct (position_some _ _ _ E) as [Hlt [Hlf Hno]].
  rewrite length_skipn in Hlt.
  apply Byte.byte_dec_bl in Hlf. rewrite nth_skipn_add in Hlf.
  apply Byte.byte_dec_bl in Ecr.
  destruct pos as [|pos].
  - unfold at_ in Ecr. replace (skip + (0 - 1)) with (skip + 0) in Ecr by lia.
    rewrite Hlf in Ecr. discriminate.
  - split; [lia|]. split; [lia|]. split; [|split].
    + unfold at_. replace (skip + (S pos + 1) - 2) with (skip + (S pos - 1)) by lia. exact Ecr.
    + unfold at_. replace (skip + (S pos + 1) - 1) with (skip + S pos) by lia. exact Hlf.
    + replace (S pos + 1 - 1) with (S pos) by lia. exact Hno.
Qed.

Lemma firstn_crlf (l : list byte) (m : nat) :
  m + 2 <= length l -> at_ l m = CR -> at_ l (S m) = LF ->
  firstn (m + 2) l = firstn m l ++ crlf.
Proof.
  revert l; induction m as [|m IH]; intros l Hl Hc Hf.
  - destruct l as [|x [|y r]]; simpl in Hl; try lia.
    unfold at_ in *; simpl in *. now subst.
  - destruct l as [|x r]; simpl in Hl; [lia|].
    simpl. f_equal. apply IH; [lia|exact Hc|exact Hf].
Qed.

(** The line [find_crlf_inclusive] reports ends in CRLF. *)
Lemma framed_line (acc k : nat) (src : list byte) :
  find_crlf_inclusive acc src = Ok (Some k) ->
  firstn (acc + k) src = firstn (acc + k - 2) src ++ crlf /\ acc + k <= length src.
Proof.
  intros Hf. destruct (find_crlf_inclusive_some_spec _ _ _ Hf) as [H2 [Hle [Hcr [Hlf _]]]].
  split; [|exact Hle].
  replace (acc + k) with (acc + k - 2 + 2) at 1 by lia.
  apply firstn_crlf; [lia|exact Hcr|].
  replace (S (acc + k - 2)) with (acc + k - 1) by lia. exact Hlf.
Qed.

Lemma last_nth (l : list byte) (d : byte) : last l d = nth (length l - 1) l d.
Proof.
  induction l as [|x [|y r] IH]; [reflexivity|reflexivity|].
  change (last (x :: y :: r) d) with (last (y :: r) d). rewrite IH.
  simpl. now rewrite Nat.sub_0_r.
Qed.

Lemma parse_literal_some_brace (line : list byte) (n : N) :
  parse_literal line = Ok (Some n) -> exists h, line = h ++ [x7d].
Proof.
  unfold parse_literal.
  destruct (parse_literal_enclosing line) as [[raw|]|e] eqn:E; try discriminate.
  intros _. unfold parse_literal_enclosing in E.
  destruct line as [|z zs] eqn:El; [discriminate|]. rewrite <- El in E |- *.
  destruct (Byte.eqb (at_ line (length line - 1)) x7d) eqn:Eb; [|simpl in E; discriminate].
  apply Byte.byte_dec_bl in Eb.
  exists (removelast line). rewrite (app_removelast_last x00) at 1 by (rewrite El; discriminate).
  rewrite last_nth. unfold at_ in Eb. now rewrite Eb.
Qed.

Lemma decode_cases (Cmd : Type) (command : list byte -> option (list byte * Cmd))
    (codec : ImapServerCodec) (src : list byte) :
  (exists acc, decode Cmd command codec src =
               decode_read_line Cmd command (max_literal_size codec) acc src) \/
  decode Cmd command codec src = Returned (Ok None, codec, src).
Proof.
  unfold decode. destruct codec as [[acc|acc needed] max]; simpl.
  - left; eauto.
  - destruct (_ <=? _)%N; [left; eauto|right; reflexivity].
Qed.

Ltac read_line_paths H cmdp :=
  unfold decode_read_line in H;
  destruct (find_crlf_inclusive _ _) as [[?k|]|?le] eqn:?Hf; cbv zeta in H;
  [ destruct (parse_literal _) as [[?n|]|?lk] eqn:?Hp;
    [ destruct (_ <? _)%N eqn:?Hm
    | destruct (cmdp (firstn _ _)) as [[[|?x ?rem] ?cmd]|] eqn:?Hc
    | ]
  | | ];
  try discriminate; try (injection H; intros; subst).

Lemma read_line_command (Cmd : Type) (command : list byte -> option (list byte * Cmd))
    max acc src c codec' src' :
  decode_read_line Cmd command max acc src = Returned (Ok (Some (OCommand c)), codec', src') ->
  exists k, find_crlf_inclusive acc src = Ok (Some k) /\
    command (firstn (acc + k) src) = Some ([], c) /\
    codec' = mkCodec (ReadLine 0) max /\ src' = skipn (acc + k) src.
Proof. intros H. read_line_paths H command. eauto. Qed.


Lemma read_line_reject (Cmd : Type) (command : list byte -> option (list byte * Cmd))
    max acc src n codec' src' :
  decode_read_line Cmd command max acc src =
    Returned (Ok (Some (OActionRequired (SendLiteralReject n))), codec', src') ->
  exists k, find_crlf_inclusive acc src = Ok (Some k) /\
    parse_literal (firstn (acc + k - 2) src) = Ok (Some n) /\ (max < n)%N /\
    codec' = mkCodec (ReadLine 0) max /\ src' = skipn (acc + k) src.
Proof.
  intros H. read_line_paths H command.
  eexists; split; [reflexivity|]. split; [eassumption|].
  split; [now apply N.ltb_lt|auto].
Qed.

Lemma read_line_ack (Cmd : Type) (command : list byte -> option (list byte * Cmd))
    max acc src n codec' src' :
  decode_read_line Cmd command max acc src =
    Returned (Ok (Some (OActionRequired (SendLiteralAck n))), codec', src') ->
  exists k, find_crlf_inclusive acc src = Ok (Some k) /\
    parse_literal (firstn (acc + k - 2) src) = Ok (Some n) /\ (n <= max)%N /\
    codec' = mkCodec (ReadLiteral (acc + k) n) max /\ src' = src.
Proof.
  intros H. read_line_paths H command.
  eexists; split; [reflexivity|]. split; [eassumption|].
  split; [now apply N.ltb_ge|auto].
Qed.

Lemma read_line_error (Cmd : Type) (command : list byte -> option (list byte * Cmd))
    max acc src e codec' src' :
  decode_read_line Cmd command max acc src = Returned (Err e, codec', src') ->
  e <> CommandParsingFailed ->
  codec' = mkCodec (ReadLine 0) max /\ src' = [].
Proof. intros H Hne. read_line_paths H command; auto; congruence. Qed.

Lemma read_line_prefix (Cmd : Type) (command : list byte -> option (list byte * Cmd))
    max acc src r codec' src' :
  decode_read_line Cmd command max acc src = Returned (r, codec', src') ->
  max_literal_size codec' = max /\ exists j, src' = skipn j src.
Proof.
  intros H. read_line_paths H command; split; try reflexivity; eauto.
  - exists 0. reflexivity.
  - exists (length src). now rewrite skipn_all.
  - exists 0. reflexivity.
  - exists (length src). now rewrite skipn_all.
Qed.

Lemma read_line_panic (Cmd : Type) (command : list byte -> option (list byte * Cmd))
    max acc src :
  decode_read_line Cmd command max acc src = Panicked ->
  exists k rem c, find_crlf_inclusive acc src = Ok (Some k) /\
    command (firstn (acc + k) src) = Some (rem, c) /\ rem <> [].
Proof.
  intros H. read_line_paths H command.
  do 3 eexists. split; [reflexivity|]. split; [eassumption|discriminate].
Qed.


Lemma scan_over_no_brace (X ds : list byte) (j : nat) :
  forallb (fun c => negb (Byte.eqb c x7b)) ds = true -> j <= length ds ->
  let L := X ++ [x7b] ++ ds ++ [x7d] in
  scan_opening_brace L (length X + 1 + j) =
  Ok (Some (firstn (length L - 1 - (length X + 1)) (skipn (length X + 1) L))).
Proof.
  intros Hd; induction j as [|j IH]; intros Hj L.
  - assert (E : length X + 1 + 0 = S (length X)) by lia.
    rewrite E. simpl scan_opening_brace.
    unfold at_, L. rewrite app_nth2 by lia. rewrite Nat.sub_diag. reflexivity.
  - rewrite Nat.add_succ_r. simpl scan_opening_brace.
    unfold at_, L. rewrite app_nth2 by lia.
    replace (length X + 1 + j - length X) with (S j) by lia. simpl nth.
    rewrite app_nth1 by lia.
    assert (Hnb : Byte.eqb (nth j ds x00) x7b = false).
    { apply forallb_forall with (x := nth j ds x00) in Hd; [|apply nth_In; lia].
      now apply negb_true_iff in Hd. }
    rewrite Hnb. apply IH; lia.
Qed.

Lemma digits_u32_sign_tail (acc : N) (ds : list byte) :
  digits_u32 acc (ds ++ [x2b]) = None.
Proof.
  revert acc; induction ds as [|c ds IH]; intros acc; [reflexivity|].
  cbn [app digits_u32]. destruct (is_digit c); [|reflexivity]. cbn [negb].
  destruct (_ <? _)%N; [apply IH|reflexivity].
Qed.

Lemma parse_literal_nonsync (X ds : list byte) :
  ds <> [] -> forallb is_digit ds = true ->
  parse_literal (X ++ [x7b] ++ (ds ++ [x2b]) ++ [x7d]) = Err BadNumber.
Proof.
  intros Hne Hd.
  assert (Hnb : forallb (fun c => negb (Byte.eqb c x7b)) (ds ++ [x2b]) = true).
  { rewrite forallb_app, andb_true_r. apply forallb_forall. intros c Hc.
    apply forallb_forall with (x := c) in Hd; [|exact Hc].
    now rewrite (digit_not _ x7b Hd eq_refl). }
  assert (Hs : from_str_radix_10_u32 (ds ++ [x2b]) = None).
  { destruct ds as [|c r]; [congruence|].
    simpl in Hd. apply andb_prop in Hd as [Hc _].
    pose proof (digits_u32_sign_tail 0 (c :: r)) as Ht.
    unfold from_str_radix_10_u32.
    destruct r as [|c' r]; cbn [app] in *;
      rewrite ?(digit_not _ x2b Hc eq_refl); exact Ht. }
  unfold parse_literal, parse_literal_enclosing.
  set (ds' := ds ++ [x2b]) in *.
  destruct (X ++ [x7b] ++ ds' ++ [x7d]) as [|z zs] eqn:E.
  { destruct X; discriminate. }
  rewrite <- E.
  assert (Hlen : length (X ++ [x7b] ++ ds' ++ [x7d]) - 1 = length X + 1 + length ds')
    by (rewrite !length_app; simpl; lia).
  unfold at_. rewrite Hlen.
  rewrite app_nth2 by lia. replace (length X + 1 + length ds' - length X) with (S (length ds')) by lia.
  simpl nth. rewrite app_nth2 by lia. rewrite Nat.sub_diag. simpl.
  change (X ++ x7b :: ds' ++ [x7d]) with (X ++ [x7b] ++ ds' ++ [x7d]).
  rewrite (scan_over_no_brace X ds' (length ds') Hnb (le_n _)).
  rewrite firstn_brace_digits, Hs. reflexivity.
Qed.

(** Extra X9: for every [u32] value [n], the decimal text the encoder
    writes for it ([to_string], as in the [N] of a literal announcement) is
    read back as [n] by [u32::from_str_radix(.., 10)], and [parse_literal]
    of any line ending in [{], that text, [}] returns [n]. *)
Theorem u32_text_parses_back (n : N) :
  (n < 2 ^ 32)%N ->
  from_str_radix_10_u32 (to_dec n) = Some n /\
  forall line, parse_literal (line ++ b "{" ++ to_dec n ++ b "}") = Ok (Some n).
Proof.
  intros Hn. destruct (EncoderUtilsFacts.to_dec_digits n) as [Hne [Hd Hv]].
  split.
  - assert (Hv' : digits_u32 0 (to_dec n) = Some n).
    { unfold decimal_value in Hv. rewrite <- Hv at 2.
      apply digits_u32_value; [exact Hd|]. now rewrite Hv. }
    unfold from_str_radix_10_u32.
    destruct (to_dec n) as [|c r]; [congruence|].
    simpl in Hd. apply andb_prop in Hd as [Hc _].
    destruct r as [|c' r]; cbn -[digits_u32];
      rewrite ?(digit_not _ x2b Hc eq_refl), ?(digit_not _ x2d Hc eq_refl);
      cbn -[digits_u32]; exact Hv'.
  - intros line. apply parse_literal_announcement; assumption.
Qed.

Lemma u32_text_parses_back_witness :
  (4294967295 < 2 ^ 32)%N /\
  (from_str_radix_10_u32 (to_dec 4294967295) = Some 4294967295%N /\
   forall line, parse_literal (line ++ b "{" ++ to_dec 4294967295 ++ b "}") = Ok (Some 4294967295%N)).
Proof.
  assert (H : (4294967295 < 2 ^ 32)%N) by (vm_compute; reflexivity).
  split; [exact H|]. exact (u32_text_parses_back 4294967295 H).
Defined.

(** Extra X10: the decoder does not take the encoder's non-synchronizing
    announcement: in line state, a complete line ending in [{N+}] (what the
    [Literal] rule writes in NonSync mode) makes [decode] fail with
    [Literal(BadNumber)], clear the buffer and return to [ReadLine{0}]. *)
Theorem nonsync_announcement_rejected
    (Cmd : Type) (command : list byte -> option (list byte * Cmd))
    (max : N) (acc : nat) (pre line rest : list byte) (len : nat) :
  length pre = acc ->
  forallb (fun c => negb (Byte.eqb c LF)) line = true ->
  decode Cmd command (mkCodec (ReadLine acc) max)
    (pre ++ line ++ literal_announcement NonSync len ++ rest) =
  Returned (Err (ELiteral BadNumber), mkCodec (ReadLine 0) max, []).
Proof.
  intros Hpre Hline.
  destruct (EncoderUtilsFacts.to_dec_digits (N.of_nat len)) as [Hne [Hd _]].
  set (ds := to_dec (N.of_nat len)) in *.
  set (L := line ++ [x7b] ++ (ds ++ [x2b]) ++ [x7d]).
  set (src := pre ++ line ++ literal_announcement NonSync len ++ rest).
  assert (Hsrc : src = pre ++ L ++ crlf ++ rest)
    by (unfold src, L, literal_announcement; now rewrite <- !app_assoc).
  assert (HL : forallb (fun c => negb (Byte.eqb c LF)) L = true).
  { unfold L. rewrite !forallb_app, Hline, (digits_no_lf ds Hd). reflexivity. }
  assert (Hfind : find_crlf_inclusive acc src = Ok (Some (length L + 2))).
  { rewrite find_crlf_inclusive_skipn, Hsrc, skipn_exact by auto.
    now apply find_line. }
  assert (Hfirst : firstn (acc + (length L + 2) - 2) src =
                   (pre ++ line) ++ [x7b] ++ (ds ++ [x2b]) ++ [x7d]).
  { rewrite Hsrc. replace (acc + (length L + 2) - 2) with (length (pre ++ L))
      by (rewrite length_app; lia).
    rewrite app_assoc, firstn_exact by reflexivity.
    unfold L. now rewrite app_assoc. }
  assert (Hlit : parse_literal (firstn (acc + (length L + 2) - 2) src) = Err BadNumber).
  { rewrite Hfirst. now apply parse_literal_nonsync. }
  fold src.
  unfold decode; cbn [state max_literal_size]; unfold decode_read_line.
  rewrite Hfind, Hlit. reflexivity.
Qed.

Lemma nonsync_announcement_rejected_witness :
  length (b "") = 0 /\
  forallb (fun c => negb (Byte.eqb c LF)) (b "a login ") = true /\
  decode _ ParserModel.command (mkCodec (ReadLine 0) 1024)
    (b "" ++ b "a login " ++ literal_announcement NonSync 5 ++ b "alice" ++ crlf) =
  Returned (Err (ELiteral BadNumber), mkCodec (ReadLine 0) 1024, []).
Proof.
  assert (H1 : length (b "") = 0) by reflexivity.
  assert (H2 : forallb (fun c => negb (Byte.eqb c LF)) (b "a login ") = true) by reflexivity.
  split; [exact H1|]. split; [exact H2|].
  exact (nonsync_announcement_rejected _ ParserModel.command 1024 0 (b "") (b "a login ")
           (b "alice" ++ crlf) 5 H1 H2).
Defined.

(** Extra X11: when [find_crlf_inclusive(skip, buf)] reports a line of [k]
    bytes, [k >= 2], the line lies within the buffer, its last two bytes
    (at [skip+k-2] and [skip+k-1]) are CR and LF, and no LF occurs between
    [skip] and them; an LF right at [skip] is never accepted as a line end. *)
Theorem find_crlf_inclusive_line (skip : nat) (buf : list byte) (k : nat) :
  find_crlf_inclusive skip buf = Ok (Some k) ->
  2 <= k /\ skip + k <= length buf /\
  at_ buf (skip + k - 2) = CR /\ at_ buf (skip + k - 1) = LF /\
  forallb (fun c => negb (Byte.eqb c LF)) (firstn (k - 1) (skipn skip buf)) = true.
Proof. apply find_crlf_inclusive_some_spec. Qed.

Lemma find_crlf_inclusive_line_witness :
  let buf := b "aaa" ++ crlf ++ b "A" ++ crlf in
  find_crlf_inclusive 5 buf = Ok (Some 3) /\
  (2 <= 3 /\ 5 + 3 <= length buf /\
   at_ buf (5 + 3 - 2) = CR /\ at_ buf (5 + 3 - 1) = LF /\
   forallb (fun c => negb (Byte.eqb c LF)) (firstn (3 - 1) (skipn 5 buf)) = true).
Proof.
  intros buf.
  assert (E : find_crlf_inclusive 5 buf = Ok (Some 3)) by (vm_compute; reflexivity).
  split; [exact E|]. exact (find_crlf_inclusive_line 5 buf 3 E).
Defined.

(** Extra X12: [find_crlf_inclusive(skip, buf)] returns [Ok(None)] (more
    data needed) exactly when there is no LF in [buf] from [skip] on. *)
Theorem find_crlf_inclusive_none (skip : nat) (buf : list byte) :
  find_crlf_inclusive skip buf = Ok None <->
  forallb (fun c => negb (Byte.eqb c LF)) (skipn skip buf) = true.
Proof.
  pose proof (position_none_iff (fun item => Byte.eqb item LF) (skipn skip buf)) as P.
  cbv beta in P. rewrite <- P. unfold find_crlf_inclusive.
  destruct (position _ (skipn skip buf)) as [pos|]; [|tauto].
  split; [|discriminate]. destruct (negb _); discriminate.
Qed.

(** Extra X13: every error of [decode] other than [CommandParsingFailed]
    ([Line(NotCrLf)] and the [Literal] errors) leaves an empty buffer and
    the state [ReadLine{0}], with [max_literal_size] unchanged. *)
Theorem decode_error_resets
    (Cmd : Type) (command : list byte -> option (list byte * Cmd))
    (codec : ImapServerCodec) (src : list byte) e codec' src' :
  decode Cmd command codec src = Returned (Err e, codec', src') ->
  e <> CommandParsingFailed ->
  codec' = mkCodec (ReadLine 0) (max_literal_size codec) /\ src' = [].
Proof.
  intros H Hne.
  destruct (decode_cases Cmd command codec src) as [[acc E]|E]; rewrite E in H;
    [exact (read_line_error _ _ _ _ _ _ _ _ H Hne)|discriminate].
Qed.

Lemma decode_error_resets_witness :
  decode _ ParserModel.command (ImapServerCodec_new 1024) (b "a noop" ++ [LF] ++ b "b") =
    Returned (Err (ELine NotCrLf), ImapServerCodec_new 1024, []) /\
  ELine NotCrLf <> CommandParsingFailed /\
  (ImapServerCodec_new 1024 = mkCodec (ReadLine 0) (max_literal_size (ImapServerCodec_new 1024)) /\
   @nil byte = []).
Proof.
  assert (E : decode _ ParserModel.command (ImapServerCodec_new 1024) (b "a noop" ++ [LF] ++ b "b") =
              Returned (Err (ELine NotCrLf), ImapServerCodec_new 1024, [])) by (vm_compute; reflexivity).
  assert (Hne : ELine NotCrLf <> CommandParsingFailed) by discriminate.
  split; [exact E|]. split; [exact Hne|].
  exact (decode_error_resets _ ParserModel.command _ _ _ _ _ E Hne).
Defined.

(** Extra X14: when [decode] returns a command, the bytes it removed from
    the buffer are exactly a prefix ending in CRLF, the parser accepted that
    prefix with nothing left over and returned that command, and the state
    is back to [ReadLine{0}]. *)
Theorem decode_command_consumes_line
    (Cmd : Type) (command : list byte -> option (list byte * Cmd))
    (codec : ImapServerCodec) (src : list byte) (c : Cmd) codec' src' :
  decode Cmd command codec src = Returned (Ok (Some (OCommand c)), codec', src') ->
  exists line, src = line ++ crlf ++ src' /\ command (line ++ crlf) = Some ([], c) /\
    codec' = mkCodec (ReadLine 0) (max_literal_size codec).
Proof.
  intros H.
  destruct (decode_cases Cmd command codec src) as [[acc E]|E]; rewrite E in H; [|discriminate].
  destruct (read_line_command _ _ _ _ _ _ _ _ H) as [k [Hf [Hc [-> ->]]]].
  destruct (framed_line _ _ _ Hf) as [Hfr _].
  exists (firstn (acc + k - 2) src). split; [|split; [|reflexivity]].
  - rewrite app_assoc, <- Hfr. symmetry. apply firstn_skipn.
  - rewrite <- Hfr. exact Hc.
Qed.

Lemma decode_command_consumes_line_witness :
  let cmd := mkCommand (b "a") Noop in
  decode _ ParserModel.command (ImapServerCodec_new 1024) (b "a noop" ++ crlf ++ b "b") =
    Returned (Ok (Some (OCommand cmd)), ImapServerCodec_new 1024, b "b") /\
  exists line, b "a noop" ++ crlf ++ b "b" = line ++ crlf ++ b "b" /\
    ParserModel.command (line ++ crlf) = Some ([], cmd) /\
    ImapServerCodec_new 1024 = mkCodec (ReadLine 0) (max_literal_size (ImapServerCodec_new 1024)).
Proof.
  intros cmd.
  assert (E : decode _ ParserModel.command (ImapServerCodec_new 1024) (b "a noop" ++ crlf ++ b "b") =
              Returned (Ok (Some (OCommand cmd)), ImapServerCodec_new 1024, b "b"))
    by (vm_compute; reflexivity).
  split; [exact E|].
  exact (decode_command_consumes_line _ ParserModel.command _ _ _ _ _ E).
Defined.

(** Extra X15: when [decode] answers [SendLiteralReject(n)], [n] exceeds
    [max_literal_size], the state is [ReadLine{0}], and the bytes removed
    from the buffer are a prefix ending in [}] and CRLF (the rejected
    announcement line). *)
Theorem decode_reject_consumes_announcement
    (Cmd : Type) (command : list byte -> option (list byte * Cmd))
    (codec : ImapServerCodec) (src : list byte) (n : N) codec' src' :
  decode Cmd command codec src =
    Returned (Ok (Some (OActionRequired (SendLiteralReject n))), codec', src') ->
  (max_literal_size codec < n)%N /\ codec' = mkCodec (ReadLine 0) (max_literal_size codec) /\
  exists line, src = line ++ b "}" ++ crlf ++ src'.
Proof.
  intros H.
  destruct (decode_cases Cmd command codec src) as [[acc E]|E]; rewrite E in H; [|discriminate].
  destruct (read_line_reject _ _ _ _ _ _ _ _ H) as [k [Hf [Hp [Hlt [-> ->]]]]].
  destruct (framed_line _ _ _ Hf) as [Hfr _].
  destruct (parse_literal_some_brace _ _ Hp) as [h Hh].
  split; [exact Hlt|]. split; [reflexivity|].
  exists h. rewrite <- (firstn_skipn (acc + k) src) at 1. rewrite Hfr, Hh.
  now rewrite <- !app_assoc.
Qed.

Lemma decode_reject_consumes_announcement_witness :
  decode _ ParserModel.command (ImapServerCodec_new 10) (b "a login {999}" ++ crlf ++ b "x") =
    Returned (Ok (Some (OActionRequired (SendLiteralReject 999))), ImapServerCodec_new 10, b "x") /\
  ((max_literal_size (ImapServerCodec_new 10) < 999)%N /\
   ImapServerCodec_new 10 = mkCodec (ReadLine 0) (max_literal_size (ImapServerCodec_new 10)) /\
   exists line, b "a login {999}" ++ crlf ++ b "x" = line ++ b "}" ++ crlf ++ b "x").
Proof.
  assert (E : decode _ ParserModel.command (ImapServerCodec_new 10) (b "a login {999}" ++ crlf ++ b "x") =
              Returned (Ok (Some (OActionRequired (SendLiteralReject 999))), ImapServerCodec_new 10, b "x"))
    by (vm_compute; reflexivity).
  split; [exact E|].
  exact (decode_reject_consumes_announcement _ ParserModel.command _ _ _ _ _ E).
Defined.

(** Extra X16: when [decode] answers [SendLiteralAck(n)], [n] is at most
    [max_literal_size], the buffer is kept whole, and the state is
    [ReadLiteral{acc, n}] where the first [acc] buffered bytes (all within
    the buffer) end in [}] and CRLF: the literal is counted from just after
    the announcement line. *)
Theorem decode_ack_waits_for_literal
    (Cmd : Type) (command : list byte -> option (list byte * Cmd))
    (codec : ImapServerCodec) (src : list byte) (n : N) codec' src' :
  decode Cmd command codec src =
    Returned (Ok (Some (OActionRequired (SendLiteralAck n))), codec', src') ->
  (n <= max_literal_size codec)%N /\ src' = src /\
  exists acc line, codec' = mkCodec (ReadLiteral acc n) (max_literal_size codec) /\
    acc <= length src /\ firstn acc src = line ++ b "}" ++ crlf.
Proof.
  intros H.
  destruct (decode_cases Cmd command codec src) as [[acc E]|E]; rewrite E in H; [|discriminate].
  destruct (read_line_ack _ _ _ _ _ _ _ _ H) as [k [Hf [Hp [Hle [-> ->]]]]].
  destruct (framed_line _ _ _ Hf) as [Hfr Hlen].
  destruct (parse_literal_some_brace _ _ Hp) as [h Hh].
  split; [exact Hle|]. split; [reflexivity|].
  exists (acc + k), h. split; [reflexivity|]. split; [exact Hlen|].
  rewrite Hfr, Hh. now rewrite <- app_assoc.
Qed.

Lemma decode_ack_waits_for_literal_witness :
  decode _ ParserModel.command (ImapServerCodec_new 1024) (b "a login {5}" ++ crlf ++ b "al") =
    Returned (Ok (Some (OActionRequired (SendLiteralAck 5))),
              mkCodec (ReadLiteral 13 5) 1024, b "a login {5}" ++ crlf ++ b "al") /\
  ((5 <= max_literal_size (ImapServerCodec_new 1024))%N /\
   b "a login {5}" ++ crlf ++ b "al" = b "a login {5}" ++ crlf ++ b "al" /\
   exists acc line, mkCodec (ReadLiteral 13 5) 1024 =
       mkCodec (ReadLiteral acc 5) (max_literal_size (ImapServerCodec_new 1024)) /\
     acc <= length (b "a login {5}" ++ crlf ++ b "al") /\
     firstn acc (b "a login {5}" ++ crlf ++ b "al") = line ++ b "}" ++ crlf).
Proof.
  assert (E : decode _ ParserModel.command (ImapServerCodec_new 1024) (b "a login {5}" ++ crlf ++ b "al") =
              Returned (Ok (Some (OActionRequired (SendLiteralAck 5))),
                        mkCodec (ReadLiteral 13 5) 1024, b "a login {5}" ++ crlf ++ b "al"))
    by (vm_compute; reflexivity).
  split; [exact E|].
  exact (decode_ack_waits_for_literal _ ParserModel.command _ _ _ _ _ E).
Defined.

(** Extra X17: [decode] never changes [max_literal_size], and the buffer it
    leaves is always the given one with some prefix removed (possibly none,
    possibly all): it never inserts, reorders or alters buffered bytes. *)
Theorem decode_only_drops_prefix
    (Cmd : Type) (command : list byte -> option (list byte * Cmd))
    (codec : ImapServerCodec) (src : list byte) r codec' src' :
  decode Cmd command codec src = Returned (r, codec', src') ->
  max_literal_size codec' = max_literal_size codec /\ exists j, src' = skipn j src.
Proof.
  intros H.
  destruct (decode_cases Cmd command codec src) as [[acc E]|E]; rewrite E in H.
  - exact (read_line_prefix _ _ _ _ _ _ _ _ H).
  - injection H as _ <- <-. split; [reflexivity|]. now exists 0.
Qed.

Lemma decode_only_drops_prefix_witness :
  decode _ ParserModel.command (ImapServerCodec_new 1024) (b "xxx" ++ crlf ++ b "a") =
    Returned (Err CommandParsingFailed, mkCodec (ReadLine 5) 1024, b "a") /\
  (max_literal_size (mkCodec (ReadLine 5) 1024) = max_literal_size (ImapServerCodec_new 1024) /\
   exists j, b "a" = skipn j (b "xxx" ++ crlf ++ b "a")).
Proof.
  assert (E : decode _ ParserModel.command (ImapServerCodec_new 1024) (b "xxx" ++ crlf ++ b "a") =
              Returned (Err CommandParsingFailed, mkCodec (ReadLine 5) 1024, b "a"))
    by (vm_compute; reflexivity).
  split; [exact E|].
  exact (decode_only_drops_prefix _ ParserModel.command _ _ _ _ _ E).
Defined.

(** Extra X19: the only way [decode] panics is the [assert!] on the parser's
    remainder: the buffer starts with a line ending in CRLF on which the
    parser succeeded and left bytes over. *)
Theorem decode_panics_only_on_leftover
    (Cmd : Type) (command : list byte -> option (list byte * Cmd))
    (codec : ImapServerCodec) (src : list byte) :
  decode Cmd command codec src = Panicked ->
  exists line rem c rest, src = line ++ crlf ++ rest /\
    command (line ++ crlf) = Some (rem, c) /\ rem <> [].
Proof.
  intros H.
  destruct (decode_cases Cmd command codec src) as [[acc E]|E]; rewrite E in H; [|discriminate].
  destruct (read_line_panic _ _ _ _ _ H) as [k [rem [c [Hf [Hc Hr]]]]].
  destruct (framed_line _ _ _ Hf) as [Hfr _].
  exists (firstn (acc + k - 2) src), rem, c, (skipn (acc + k) src).
  split; [|split; [|exact Hr]].
  - rewrite app_assoc, <- Hfr. symmetry. apply firstn_skipn.
  - rewrite <- Hfr. exact Hc.
Qed.

Lemma decode_panics_only_on_leftover_witness :
  decode _ ParserModel.command (mkCodec (ReadLine 12) 1024) (b "a noop" ++ crlf ++ b "a noop" ++ crlf) =
    Panicked /\
  exists line rem c rest, b "a noop" ++ crlf ++ b "a noop" ++ crlf = line ++ crlf ++ rest /\
    ParserModel.command (line ++ crlf) = Some (rem, c) /\ rem <> [].
Proof.
  assert (E : decode _ ParserModel.command (mkCodec (ReadLine 12) 1024)
                (b "a noop" ++ crlf ++ b "a noop" ++ crlf) = Panicked) by (vm_compute; reflexivity).
  split; [exact E|].
  exact (decode_panics_only_on_leftover _ ParserModel.command _ _ E).
Defined.

Lemma scan_cases (line : list byte) (i : nat) :
  (scan_opening_brace line i = Err NoOpeningBrace /\ forall j, j < i -> at_ line j <> x7b) \/
  (exists r, scan_opening_brace line i = Ok (Some r) /\ exists j, j < i /\ at_ line j = x7b).
Proof.
  induction i as [|i IH].
  - left. split; [reflexivity|lia].
  - simpl scan_opening_brace. destruct (Byte.eqb (at_ line i) x7b) eqn:Eb.
    + right. eexists. split; [reflexivity|]. exists i. split; [lia|].
      now apply Byte.byte_dec_bl.
    + destruct IH as [[He Hj]|[r [Hr [j [Hj Hb]]]]].
      * left. split; [exact He|]. intros j Hj'.
        destruct (Nat.eq_dec j i) as [->|Hne].
        -- intros Hb. rewrite Hb in Eb. discriminate.
        -- apply Hj. lia.
      * right. exists r. split; [exact Hr|]. exists j. split; [lia|exact Hb].
Qed.

(** Extra X20: [parse_literal] returns [Ok(None)] (no literal announced)
    exactly when the line does not end in [}], and fails with
    [NoOpeningBrace] exactly when the line ends in [}] with no [{] anywhere
    before it. *)
Theorem parse_literal_no_literal_or_no_brace (line : list byte) :
  (parse_literal line = Ok None <-> forall h, line <> h ++ [x7d]) /\
  (parse_literal line = Err NoOpeningBrace <-> exists h, line = h ++ [x7d] /\ ~ In x7b h).
Proof.
  destruct (EncoderUtilsFacts.snoc_cases line) as [->|[h [c ->]]].
  - cbn. split; split.
    + intros _ h' E. destruct h'; discriminate.
    + reflexivity.
    + discriminate.
    + intros [h' [E _]]. destruct h'; discriminate.
  - unfold parse_literal, parse_literal_enclosing.
    destruct (h ++ [c]) as [|z zs] eqn:Ez; [destruct h; discriminate|]. rewrite <- Ez.
    assert (Hl : length (h ++ [c]) - 1 = length h) by (rewrite length_app; simpl; lia).
    assert (Hc : at_ (h ++ [c]) (length h) = c)
      by (unfold at_; rewrite app_nth2, Nat.sub_diag by lia; reflexivity).
    rewrite Hl, Hc.
    destruct (Byte.eqb c x7d) eqn:Ec; simpl negb.
    + apply Byte.byte_dec_bl in Ec. subst c.
      destruct (scan_cases (h ++ [x7d]) (length h)) as [[He Hj]|[r [Hr [j [Hj Hb]]]]].
      * rewrite He. split; split.
        -- discriminate.
        -- intros H. exfalso. exact (H h eq_refl).
        -- intros _. exists h. split; [reflexivity|]. intros Hin.
           destruct (In_nth_error _ _ Hin) as [j Ej].
           assert (Hjl : j < length h) by (apply nth_error_Some; congruence).
           apply (Hj j Hjl). unfold at_. rewrite app_nth1 by exact Hjl.
           now apply nth_error_nth.
        -- intros _. reflexivity.
      * rewrite Hr. split; split.
        -- destruct (from_str_radix_10_u32 r); discriminate.
        -- intros H. exfalso. exact (H h eq_refl).
        -- destruct (from_str_radix_10_u32 r); discriminate.
        -- intros [h' [E Hn]]. apply app_inj_tail in E as [<- _].
           exfalso. apply Hn. unfold at_ in Hb. rewrite app_nth1 in Hb by exact Hj.
           rewrite <- Hb. now apply nth_In.
    + assert (Hne : c <> x7d) by (intros ->; discriminate).
      split; split.
      * intros _ h' E. apply app_inj_tail in E as [_ E]. exact (Hne E).
      * intros _. reflexivity.
      * discriminate.
      * intros [h' [E _]]. apply app_inj_tail in E as [_ E]. exfalso. exact (Hne E).
Qed.

End DecoderMoreFacts.
